(** * The points service: ledger and oldest-first spend allocation

    A shallow embedding of [PointsService] (points.service.ts) and of the
    variant of the service that recomputes a payer's balance on every loop
    iteration, together with the properties of [spendPoints].

    Modelling conventions.
    - [number] is modelled by [Z]: the service only adds, subtracts and
      compares point amounts, and the ledger holds integers.  A JS number
      is a binary64 float, whose sums and differences are exact as long
      as they stay within [MAX_SAFE_INTEGER]; the properties that depend
      on the value of a sum carry the hypothesis [safeLedger] or
      [safeCall], under which every number that the code forms stays in
      that range ([ledger_sums_in_range], [walk_values_in_range]), and
      under which the service with rounded arithmetic ([Rounded]) does
      what the model does ([rounded_spendPoints_exact]).
    - A [Date] is modelled by its [getTime()] value, an integer number of
      milliseconds; [new Date()] inside [spendPoints] becomes the extra
      argument [now].
    - [this.transactions] is threaded explicitly: every operation takes the
      ledger and returns the ledger it leaves behind, also when it throws.
    - [spendingByPayer] is a JS [Map], whose [forEach] visits keys in the
      order of their first [set]; it is modelled by an association list
      that is updated in place or extended at the end.  [payerBalances]
      and the object built by [getBalances] are only read by key, and are
      modelled by [gmap string Z].  The object of [getBalances] is a plain
      object, which inherits from [Object.prototype]; the properties of
      [getBalances] carry the hypothesis [plainPayers], that no payer of
      the ledger has the name of a member of [Object.prototype]. *)

From stdpp Require Import base numbers option list sorting strings gmap.
From Stdlib Require Import ZArith Lia.

Local Open Scope Z_scope.

(** ** Data model *)

(** interfaces/transaction.interface.ts *)
Record Transaction := mkTransaction {
  payer : string;
  points : Z;
  timestamp : Z;
}.

(** interfaces/spend-result.interface.ts; the fields are [payer] and
    [points] in the source. *)
Record SpendResult := mkSpendResult {
  result_payer : string;
  result_points : Z;
}.

(** The two messages with which [spendPoints] throws
    [BadRequestException]. *)
Inductive BadRequestException :=
  | PointsMustBePositive
  | InsufficientPoints (available requested : Z).

#[global] Instance Transaction_eq_dec : EqDecision Transaction.
Proof. solve_decision. Defined.
#[global] Instance SpendResult_eq_dec : EqDecision SpendResult.
Proof. solve_decision. Defined.
#[global] Instance BadRequestException_eq_dec : EqDecision BadRequestException.
Proof. solve_decision. Defined.

(** ** The insertion-ordered [Map<string, number>] *)

Fixpoint map_get (m : list (string * Z)) (key : string) : option Z :=
  match m with
  | [] => None
  | (k, v) :: m' => if decide (k = key) then Some v else map_get m' key
  end.

Fixpoint map_set (m : list (string * Z)) (key : string) (value : Z)
  : list (string * Z) :=
  match m with
  | [] => [(key, value)]
  | (k, v) :: m' =>
      if decide (k = key) then (k, value) :: m'
      else (k, v) :: map_set m' key value
  end.

(** ** Ledger operations *)

Definition addTransaction (p : string) (pts : Z) (ts : Z)
    (transactions : list Transaction) : Transaction * list Transaction :=
  let transaction := mkTransaction p pts ts in
  (transaction, transactions ++ [transaction]).

(** [this.transactions.reduce((sum, t) => sum + t.points, 0)] *)
Definition getTotalPoints (transactions : list Transaction) : Z :=
  foldl (λ sum t, sum + points t) 0 transactions.

(** [filter((t) => t.payer === payer).reduce(...)], the balance lookup of
    the variant without the precomputed map. *)
Definition getPayerBalance (transactions : list Transaction) (p : string) : Z :=
  foldl (λ sum t, sum + points t) 0
        (filter (λ t, payer t = p) transactions).

(** Step 2 of [spendPoints]: the precomputed balance of every payer. *)
Definition payerBalances (transactions : list Transaction) : gmap string Z :=
  foldl (λ balances t,
           let currentBalance := default 0 (balances !! payer t) in
           <[payer t := currentBalance + points t]> balances)
        ∅ transactions.

(** [getBalances]; the model covers payer names that are not names of
    members of [Object.prototype]. *)
Definition getBalances (transactions : list Transaction) : gmap string Z :=
  foldl (λ balances t,
           <[payer t := default 0 (balances !! payer t) + points t]> balances)
        ∅ transactions.

(** ** Step 1: the stable sort by timestamp

    [Array.prototype.sort] is stable; with the comparator
    [a.timestamp.getTime() - b.timestamp.getTime()] it orders the copy by
    ascending timestamp and keeps the insertion order among equal
    timestamps. *)

Fixpoint insert_by_time (t : Transaction) (l : list Transaction)
  : list Transaction :=
  match l with
  | [] => [t]
  | u :: l' =>
      if timestamp t <=? timestamp u then t :: u :: l'
      else u :: insert_by_time t l'
  end.

Definition sortTransactions (transactions : list Transaction)
  : list Transaction :=
  foldr insert_by_time [] transactions.

(** ** Steps 3 and 4: the chronological walk *)

Record Walk := mkWalk {
  spendingByPayer : list (string * Z);
  remainingToSpend : Z;
}.

Section walk.
(** How the loop body obtains [currentPayerBalance]: a lookup in the
    precomputed map, or a scan of the ledger. *)
Variable currentPayerBalanceOf : string → Z.

(** One iteration of the [for] loop, after the [break] test. *)
Definition process (st : Walk) (transaction : Transaction) : Walk :=
  let p := payer transaction in
  let transactionPoints := points transaction in
  let currentPayerBalance := currentPayerBalanceOf p in
  let currentSpending := default 0 (map_get (spendingByPayer st) p) in
  if 0 <? transactionPoints then
    let availableFromTransaction :=
      Z.min transactionPoints (remainingToSpend st) in
    let newPayerBalance :=
      currentPayerBalance - currentSpending - availableFromTransaction in
    if 0 <=? newPayerBalance then
      let amountToSpend := availableFromTransaction in
      mkWalk (map_set (spendingByPayer st) p (currentSpending + amountToSpend))
             (remainingToSpend st - amountToSpend)
    else
      let maxCanSpend := currentPayerBalance - currentSpending in
      if 0 <? maxCanSpend then
        mkWalk (map_set (spendingByPayer st) p (currentSpending + maxCanSpend))
               (remainingToSpend st - maxCanSpend)
      else st
  else
    let pointsToGiveBack := Z.min (Z.abs transactionPoints) currentSpending in
    if 0 <? pointsToGiveBack then
      mkWalk (map_set (spendingByPayer st) p (currentSpending - pointsToGiveBack))
             (remainingToSpend st + pointsToGiveBack)
    else st.

(** The [for ... of sortedTransactions] loop with its [break]. *)
Fixpoint walk (st : Walk) (sortedTransactions : list Transaction) : Walk :=
  match sortedTransactions with
  | [] => st
  | transaction :: rest =>
      if remainingToSpend st <=? 0 then st
      else walk (process st transaction) rest
  end.
End walk.

(** ** Steps 5 and 6: the result array and the recorded spending *)

Definition toResult (spending : list (string * Z)) : list SpendResult :=
  omap (λ '(p, pts), if 0 <? pts then Some (mkSpendResult p (- pts)) else None)
       spending.

Definition recordSpending (now : Z) (result : list SpendResult)
  : list Transaction :=
  map (λ spend, mkTransaction (result_payer spend) (result_points spend) now)
      result.

(** What a call leaves behind: the value it returns or the exception it
    throws, and the ledger afterwards. *)
Definition Outcome : Type :=
  (BadRequestException + list SpendResult) * list Transaction.

(** The body of [spendPoints] below its two guards. *)
Definition allocate (currentPayerBalanceOf : string → Z) (now : Z)
    (pointsToSpend : Z) (transactions : list Transaction) : Outcome :=
  let sorted := sortTransactions transactions in
  let final := walk currentPayerBalanceOf (mkWalk [] pointsToSpend) sorted in
  let result := toResult (spendingByPayer final) in
  (inr result, transactions ++ recordSpending now result).

(** The two guards in front of that body. *)
Definition guarded (pointsToSpend : Z)
    (transactions : list Transaction) (body : Outcome) : Outcome :=
  if pointsToSpend <? 0 then (inl PointsMustBePositive, transactions)
  else
    let totalPoints := getTotalPoints transactions in
    if totalPoints <? pointsToSpend then
      (inl (InsufficientPoints totalPoints pointsToSpend), transactions)
    else body.

(** [spendPoints] of points.service.ts. *)
Definition spendPoints (now : Z) (pointsToSpend : Z)
    (transactions : list Transaction) : Outcome :=
  guarded pointsToSpend transactions
    (allocate (λ p, default 0 (payerBalances transactions !! p))
              now pointsToSpend transactions).

(** The variant of the service that has no precomputed map and calls
    [getPayerBalance] in the loop. *)
Module Unnamed.
Definition spendPoints (now : Z) (pointsToSpend : Z)
    (transactions : list Transaction) : Outcome :=
  guarded pointsToSpend transactions
    (allocate (getPayerBalance transactions) now pointsToSpend transactions).
End Unnamed.

(** ** The reference scenario of the README *)

Definition SHOPIFY : string := "SHOPIFY".
Definition EBAY : string := "EBAY".
Definition AMAZON : string := "AMAZON".

(** The five events, with their timestamps in milliseconds since the
    epoch (UTC). *)
Definition scenario : list Transaction :=
  [ mkTransaction SHOPIFY 300 1719741600000      (* 2024-06-30T10:00:00Z *)
  ; mkTransaction SHOPIFY 1000 1719928800000     (* 2024-07-02T14:00:00Z *)
  ; mkTransaction EBAY 200 1719745200000         (* 2024-06-30T11:00:00Z *)
  ; mkTransaction AMAZON 10000 1719842400000     (* 2024-07-01T14:00:00Z *)
  ; mkTransaction SHOPIFY (-200) 1719759600000   (* 2024-06-30T15:00:00Z *)
  ].

(** Adding the events of a list to a ledger, one [addTransaction] each. *)
Definition addAll (events ledger : list Transaction) : list Transaction :=
  foldl (λ txs e, snd (addTransaction (payer e) (points e) (timestamp e) txs))
        ledger events.

(** What the scenario is to return, and the balances it is to leave. *)
Definition scenario_result : list SpendResult :=
  [ mkSpendResult SHOPIFY (-100); mkSpendResult EBAY (-200);
    mkSpendResult AMAZON (-4700) ].

Definition scenario_balances : gmap string Z :=
  {[ SHOPIFY := 1000; EBAY := 0; AMAZON := 5300 ]}.

(** The orders in which the five events can be added. *)
Definition scenario_orders : list (list Transaction) :=
  Eval vm_compute in permutations scenario.

(** ** Reading a result *)

Fixpoint sumAbs (l : list Z) : Z :=
  match l with
  | [] => 0
  | z :: l' => Z.abs z + sumAbs l'
  end.

(** The sum of the absolute values of the deductions of a result. *)
Definition totalDeducted (result : list SpendResult) : Z :=
  sumAbs (result_points <$> result).

(** What a result deducts from a payer: the absolute value of the payer's
    entry, or 0 when the payer has none. *)
Fixpoint deductedFrom (result : list SpendResult) (p : string) : Z :=
  match result with
  | [] => 0
  | r :: rest =>
      if decide (result_payer r = p) then Z.abs (result_points r)
      else deductedFrom rest p
  end.

(** The sum of the values held by a spending map. *)
Fixpoint totalSpending (m : list (string * Z)) : Z :=
  match m with
  | [] => 0
  | (_, v) :: m' => v + totalSpending m'
  end.

(** The state of the walk of [spendPoints pointsToSpend] when the loop is
    left, and after its first [k] iterations. *)
Definition finalWalk (pointsToSpend : Z) (transactions : list Transaction)
  : Walk :=
  walk (λ p, default 0 (payerBalances transactions !! p))
       (mkWalk [] pointsToSpend) (sortTransactions transactions).

Definition walkAfter (k : nat) (pointsToSpend : Z)
    (transactions : list Transaction) : Walk :=
  walk (λ p, default 0 (payerBalances transactions !! p))
       (mkWalk [] pointsToSpend) (take k (sortTransactions transactions)).


(** ** The walk as its description has it *)

(** Greedy oldest-first drawing: every event, in the order given, is drawn
    for the smaller of its amount and what remains to be spent. *)
Fixpoint greedyDraws (remaining : Z) (events : list Transaction)
  : list (string * Z) :=
  match events with
  | [] => []
  | e :: rest =>
      let draw := Z.min (points e) remaining in
      (payer e, draw) :: greedyDraws (remaining - draw) rest
  end.

(** What a list of draws takes from a payer, and what it takes in all. *)
Fixpoint drawnFrom (draws : list (string * Z)) (p : string) : Z :=
  match draws with
  | [] => 0
  | (q, d) :: rest => (if decide (q = p) then d else 0) + drawnFrom rest p
  end.

Fixpoint drawnTotal (draws : list (string * Z)) : Z :=
  match draws with
  | [] => 0
  | (_, d) :: rest => d + drawnTotal rest
  end.

(** The payers from which the walk draws, one entry per draw, in the
    order of the draws: an iteration draws when it lowers the counter. *)
Fixpoint drawLog (bal : string → Z) (st : Walk)
    (sortedTransactions : list Transaction) : list string :=
  match sortedTransactions with
  | [] => []
  | transaction :: rest =>
      if remainingToSpend st <=? 0 then []
      else
        let st' := process bal st transaction in
        (if remainingToSpend st' <? remainingToSpend st
         then [payer transaction] else [])
        ++ drawLog bal st' rest
  end.

(** Scanning a list from the left and keeping the first occurrence of
    every element. *)
Definition see (seen : list string) (p : string) : list string :=
  if decide (p ∈ seen) then seen else seen ++ [p].

Definition firstSeen (l : list string) : list string := foldl see [] l.

(** The payers of a call in the order in which the walk first draws from
    them. *)
Definition firstDrawn (pointsToSpend : Z) (transactions : list Transaction)
  : list string :=
  firstSeen (drawLog (λ p, default 0 (payerBalances transactions !! p))
                     (mkWalk [] pointsToSpend)
                     (sortTransactions transactions)).

(** ** Ledgers used as examples *)

(** A credit of 100, a later debit of 50 for the same payer, and a still
    later credit of 10 for another payer. *)
Definition debited_ledger : list Transaction :=
  [ mkTransaction "A" 100 1; mkTransaction "A" (-50) 2;
    mkTransaction "B" 10 3 ].

(** A payer whose only event is a debit, next to a payer with a credit. *)
Definition overdrawn_ledger : list Transaction :=
  [ mkTransaction "A" (-100) 1; mkTransaction "B" 150 2 ].

(** A ledger whose total is negative. *)
Definition debt_ledger : list Transaction := [ mkTransaction "A" (-5) 1 ].

(** Two credits that arrive in the reverse of their chronological order. *)
Definition credit_ledger : list Transaction :=
  [ mkTransaction "A" 100 2; mkTransaction "B" 50 1 ].

(** ** Reading the balances *)

(** The sum of the balances that [getBalances] reports. *)
Definition balanceSum (balances : gmap string Z) : Z :=
  map_fold (λ _ balance sum, balance + sum) 0 balances.

(** ** The range of exact arithmetic *)

(** [Number.MAX_SAFE_INTEGER]: binary64 represents every integer up to
    this magnitude, and adds and subtracts two of them exactly when the
    result is again in the range. *)
Definition MAX_SAFE_INTEGER : Z := 2 ^ 53 - 1.

(** A ledger whose points add up, in absolute value, to a safe integer:
    every sum of some of its points is then a safe integer. *)
Definition safeLedger (transactions : list Transaction) : Prop :=
  sumAbs (points <$> transactions) ≤ MAX_SAFE_INTEGER.

(** A call whose amount, added to the absolute values of the points of
    the ledger, stays a safe integer. *)
Definition safeCall (pointsToSpend : Z) (transactions : list Transaction)
  : Prop :=
  sumAbs (points <$> transactions) + Z.abs pointsToSpend ≤ MAX_SAFE_INTEGER.

(** A rounding of the integers that leaves the safe integers alone, as
    the rounding of binary64 does. *)
Definition exactOnSafe (fl : Z → Z) : Prop :=
  ∀ z, Z.abs z ≤ MAX_SAFE_INTEGER → fl z = z.

(** The rounding of binary64 on the integers: to 53 significant bits, to
    the nearest, ties to the even significand; it stands for the rounding
    of the code as long as the magnitude stays below 2^1024, where
    binary64 gives [Infinity]. *)
Definition binary64 (z : Z) : Z :=
  let a := Z.abs z in
  if a <? 2 ^ 53 then z
  else
    let e := Z.log2 a - 52 in
    let q := a / 2 ^ e in
    let r := a mod 2 ^ e in
    let half := 2 ^ (e - 1) in
    let q' := if (half <? r) || ((r =? half) && Z.odd q) then q + 1 else q in
    Z.sgn z * (q' * 2 ^ e).

(** A credit of 1 followed by a credit above the safe range. *)
Definition unsafe_ledger : list Transaction :=
  [ mkTransaction "A" 1 1; mkTransaction "B" (2 ^ 53 + 4) 2 ].

(** The names of the members of [Object.prototype], which a plain object
    does not treat as ordinary keys. *)
Definition objectPrototypeKeys : list string :=
  [ "__proto__"; "constructor"; "hasOwnProperty"; "isPrototypeOf";
    "propertyIsEnumerable"; "toLocaleString"; "toString"; "valueOf";
    "__defineGetter__"; "__defineSetter__"; "__lookupGetter__";
    "__lookupSetter__" ].

(** A ledger none of whose payers carries such a name. *)
Definition plainPayers (transactions : list Transaction) : Prop :=
  Forall (λ t, payer t ∉ objectPrototypeKeys) transactions.

(** The service with every addition and subtraction of the source
    followed by a rounding [fl]; [Math.min], [Math.abs], the unary minus
    and the comparisons do not round. *)
Module Rounded.
Section rounded.
Variable fl : Z → Z.

Definition getTotalPoints (transactions : list Transaction) : Z :=
  foldl (λ sum t, fl (sum + points t)) 0 transactions.

Definition getPayerBalance (transactions : list Transaction) (p : string) : Z :=
  foldl (λ sum t, fl (sum + points t)) 0
        (filter (λ t, payer t = p) transactions).

Definition payerBalances (transactions : list Transaction) : gmap string Z :=
  foldl (λ balances t,
           let currentBalance := default 0 (balances !! payer t) in
           <[payer t := fl (currentBalance + points t)]> balances)
        ∅ transactions.

Definition getBalances (transactions : list Transaction) : gmap string Z :=
  foldl (λ balances t,
           <[payer t := fl (default 0 (balances !! payer t) + points t)]>
             balances)
        ∅ transactions.

Definition process (currentPayerBalanceOf : string → Z)
    (st : Walk) (transaction : Transaction) : Walk :=
  let p := payer transaction in
  let transactionPoints := points transaction in
  let currentPayerBalance := currentPayerBalanceOf p in
  let currentSpending := default 0 (map_get (spendingByPayer st) p) in
  if 0 <? transactionPoints then
    let availableFromTransaction :=
      Z.min transactionPoints (remainingToSpend st) in
    let newPayerBalance :=
      fl (fl (currentPayerBalance - currentSpending)
          - availableFromTransaction) in
    if 0 <=? newPayerBalance then
      let amountToSpend := availableFromTransaction in
      mkWalk (map_set (spendingByPayer st) p
                (fl (currentSpending + amountToSpend)))
             (fl (remainingToSpend st - amountToSpend))
    else
      let maxCanSpend := fl (currentPayerBalance - currentSpending) in
      if 0 <? maxCanSpend then
        mkWalk (map_set (spendingByPayer st) p
                  (fl (currentSpending + maxCanSpend)))
               (fl (remainingToSpend st - maxCanSpend))
      else st
  else
    let pointsToGiveBack := Z.min (Z.abs transactionPoints) currentSpending in
    if 0 <? pointsToGiveBack then
      mkWalk (map_set (spendingByPayer st) p
                (fl (currentSpending - pointsToGiveBack)))
             (fl (remainingToSpend st + pointsToGiveBack))
    else st.

Fixpoint walk (currentPayerBalanceOf : string → Z) (st : Walk)
    (sortedTransactions : list Transaction) : Walk :=
  match sortedTransactions with
  | [] => st
  | transaction :: rest =>
      if remainingToSpend st <=? 0 then st
      else walk currentPayerBalanceOf
                (process currentPayerBalanceOf st transaction) rest
  end.

Definition spendPoints (now : Z) (pointsToSpend : Z)
    (transactions : list Transaction) : Outcome :=
  if pointsToSpend <? 0 then (inl PointsMustBePositive, transactions)
  else
    let totalPoints := getTotalPoints transactions in
    if totalPoints <? pointsToSpend then
      (inl (InsufficientPoints totalPoints pointsToSpend), transactions)
    else
      let sorted := sortTransactions transactions in
      let balances := payerBalances transactions in
      let final :=
        walk (λ p, default 0 (balances !! p)) (mkWalk [] pointsToSpend)
             sorted in
      let result := toResult (spendingByPayer final) in
      (inr result, transactions ++ recordSpending now result).

End rounded.
End Rounded.

(** ** Predicates used in the statements *)

(** The order that the sort establishes. *)
Definition earlier (a b : Transaction) : Prop := timestamp a ≤ timestamp b.

(** No payer has a negative spending. *)
Definition nonneg (m : list (string * Z)) : Prop := Forall (λ kv, 0 ≤ kv.2) m.

(** What every state of the walk satisfies: the counter is not negative,
    no payer's spending is negative, spending and counter add up to the
    request, the map has one entry per key, and a payer's spending is
    zero or bounded by the payer's balance. *)
Record WalkInv (bal : string → Z) (pointsToSpend : Z) (st : Walk) : Prop := {
  inv_remaining : 0 ≤ remainingToSpend st;
  inv_nonneg : nonneg (spendingByPayer st);
  inv_total :
    totalSpending (spendingByPayer st) + remainingToSpend st = pointsToSpend;
  inv_keys : NoDup (spendingByPayer st).*1;
  inv_ceiling :
    ∀ p, default 0 (map_get (spendingByPayer st) p) ≤ Z.max 0 (bal p);
}.

(** * Properties *)

(** ** Sums over the ledger *)

Lemma foldl_points_shift (a : Z) (l : list Transaction) :
  foldl (λ sum t, sum + points t) a l =
  a + foldl (λ sum t, sum + points t) 0 l.
Proof.
  revert a. induction l as [|t l IH]; intros a; simpl; [lia|].
  rewrite (IH (a + points t)), (IH (0 + points t)). lia.
Qed.

Lemma getTotalPoints_nil : getTotalPoints [] = 0.
Proof. reflexivity. Qed.

Lemma getTotalPoints_cons t l :
  getTotalPoints (t :: l) = points t + getTotalPoints l.
Proof.
  unfold getTotalPoints. simpl. rewrite foldl_points_shift. lia.
Qed.

Lemma getPayerBalance_nil p : getPayerBalance [] p = 0.
Proof. reflexivity. Qed.

Lemma getPayerBalance_cons t l p :
  getPayerBalance (t :: l) p =
  (if decide (payer t = p) then points t else 0) + getPayerBalance l p.
Proof.
  unfold getPayerBalance. rewrite filter_cons.
  destruct (decide (payer t = p)); [|lia].
  simpl. rewrite foldl_points_shift. lia.
Qed.

Lemma getTotalPoints_perm l1 l2 :
  l1 ≡ₚ l2 → getTotalPoints l1 = getTotalPoints l2.
Proof.
  induction 1 as [|t l1 l2 _ IH|t u l|l1 l2 l3 _ IH1 _ IH2];
    rewrite ?getTotalPoints_cons; lia.
Qed.

Lemma getPayerBalance_perm l1 l2 p :
  l1 ≡ₚ l2 → getPayerBalance l1 p = getPayerBalance l2 p.
Proof.
  induction 1 as [|t l1 l2 _ IH|t u l|l1 l2 l3 _ IH1 _ IH2];
    rewrite ?getPayerBalance_cons; lia.
Qed.

(** The precomputed map holds, for every payer, the balance that a scan of
    the ledger computes; a payer without events is absent from the map. *)
Lemma payerBalances_from (m : gmap string Z) (l : list Transaction) p :
  default 0
    (foldl (λ balances t,
              let currentBalance := default 0 (balances !! payer t) in
              <[payer t := currentBalance + points t]> balances) m l !! p) =
  default 0 (m !! p) + getPayerBalance l p.
Proof.
  revert m. induction l as [|t l IH]; intros m; simpl.
  - rewrite getPayerBalance_nil. lia.
  - rewrite IH, getPayerBalance_cons.
    destruct (decide (payer t = p)) as [->|Hne].
    + rewrite lookup_insert_eq. simpl. lia.
    + rewrite lookup_insert_ne by done. lia.
Qed.

Lemma payerBalances_lookup l p :
  default 0 (payerBalances l !! p) = getPayerBalance l p.
Proof.
  unfold payerBalances. rewrite payerBalances_from, lookup_empty. simpl. lia.
Qed.

(** ** The stable sort *)

Lemma insert_by_time_perm t l : insert_by_time t l ≡ₚ t :: l.
Proof.
  induction l as [|u l IH]; simpl; [done|].
  destruct (timestamp t <=? timestamp u); [done|].
  rewrite IH. apply Permutation_swap.
Qed.

Lemma sortTransactions_perm l : sortTransactions l ≡ₚ l.
Proof.
  induction l as [|t l IH]; simpl; [done|].
  by rewrite insert_by_time_perm, IH.
Qed.

Lemma insert_by_time_sorted t l :
  StronglySorted earlier l → StronglySorted earlier (insert_by_time t l).
Proof.
  induction 1 as [|u l Hl IH Hu]; simpl.
  - repeat constructor.
  - destruct (Z.leb_spec (timestamp t) (timestamp u)) as [Hle|Hgt].
    + constructor; [by constructor|].
      constructor; [done|].
      eapply Forall_impl; [exact Hu|]. unfold earlier. intros; lia.
    + constructor; [done|].
      rewrite insert_by_time_perm. constructor; [|done].
      unfold earlier. lia.
Qed.

Lemma sortTransactions_sorted l : StronglySorted earlier (sortTransactions l).
Proof.
  induction l as [|t l IH]; simpl; [constructor|].
  by apply insert_by_time_sorted.
Qed.

(** Stability: events that carry the same timestamp keep their insertion
    order. *)
Lemma insert_by_time_filter ts t l :
  StronglySorted earlier l →
  filter (λ u, timestamp u = ts) (insert_by_time t l) =
  filter (λ u, timestamp u = ts) (t :: l).
Proof.
  induction 1 as [|u l Hl IH Hu]; simpl; [done|].
  destruct (Z.leb_spec (timestamp t) (timestamp u)) as [Hle|Hgt]; [done|].
  rewrite (filter_cons _ u), IH, !filter_cons.
  destruct (decide (timestamp u = ts)) as [Hu'|]; [|done].
  destruct (decide (timestamp t = ts)) as [Ht'|]; [lia|done].
Qed.

Lemma sortTransactions_stable ts l :
  filter (λ u, timestamp u = ts) (sortTransactions l) =
  filter (λ u, timestamp u = ts) l.
Proof.
  induction l as [|t l IH]; simpl; [done|].
  rewrite insert_by_time_filter by apply sortTransactions_sorted.
  by rewrite !filter_cons, IH.
Qed.

(** ** The insertion-ordered map *)

Lemma map_get_set_eq m k v : map_get (map_set m k v) k = Some v.
Proof.
  induction m as [|[k' v'] m IH]; simpl.
  - by rewrite decide_True.
  - destruct (decide (k' = k)) as [->|Hne]; simpl.
    + by rewrite decide_True.
    + by rewrite decide_False.
Qed.

Lemma map_get_set_ne m k k' v :
  k ≠ k' → map_get (map_set m k v) k' = map_get m k'.
Proof.
  intros Hne. induction m as [|[k0 v0] m IH]; simpl.
  - by rewrite decide_False.
  - destruct (decide (k0 = k)) as [->|Hne0]; simpl.
    + by rewrite !decide_False.
    + by rewrite IH.
Qed.

Lemma map_get_None m k : map_get m k = None ↔ k ∉ m.*1.
Proof.
  induction m as [|[k' v'] m IH]; simpl.
  - split; [intros _; apply not_elem_of_nil|done].
  - rewrite not_elem_of_cons. destruct (decide (k' = k)) as [->|Hne].
    + split; [done|]. intros [? _]. done.
    + rewrite IH. split; [intros ?; split; [congruence|done]|intros [_ ?]; done].
Qed.

Lemma map_get_Some_elem m k v : map_get m k = Some v → k ∈ m.*1.
Proof.
  intros Hget. destruct (decide (k ∈ m.*1)) as [|Hnot]; [done|].
  apply map_get_None in Hnot. congruence.
Qed.

(** [set] keeps the position of a key that is present and appends a new
    key at the end. *)
Lemma map_set_keys m k v :
  (map_set m k v).*1 = if decide (k ∈ m.*1) then m.*1 else m.*1 ++ [k].
Proof.
  induction m as [|[k' v'] m IH].
  - destruct (decide (k ∈ ([] : list (string * Z)).*1)) as [Hin|_]; [|done].
    by apply elem_of_nil in Hin.
  - cbn [map_set fmap list_fmap fst].
    destruct (decide (k' = k)) as [->|Hne].
    + destruct (decide (k ∈ k :: m.*1)) as [|Hnot]; [done|].
      destruct Hnot. apply elem_of_cons. by left.
    + cbn [fmap list_fmap fst]. rewrite IH.
      destruct (decide (k ∈ m.*1)) as [Hin|Hnot];
        destruct (decide (k ∈ k' :: m.*1)) as [Hin'|Hnot']; try done.
      * destruct Hnot'. apply elem_of_cons. by right.
      * apply elem_of_cons in Hin' as [?|?]; [congruence|done].
Qed.

Lemma map_set_NoDup m k v : NoDup m.*1 → NoDup (map_set m k v).*1.
Proof.
  intros Hnd. rewrite map_set_keys.
  destruct (decide (k ∈ m.*1)) as [|Hnot]; [done|].
  apply NoDup_app. split; [done|]. split; [|apply NoDup_singleton].
  intros q Hq Hq'. apply list_elem_of_singleton in Hq'. by subst.
Qed.

Lemma map_set_total m k v :
  totalSpending (map_set m k v) =
  totalSpending m - default 0 (map_get m k) + v.
Proof.
  induction m as [|[k' v'] m IH]; simpl; [lia|].
  destruct (decide (k' = k)); simpl; lia.
Qed.

Lemma map_set_nonneg m k v : 0 ≤ v → nonneg m → nonneg (map_set m k v).
Proof.
  intros Hv. unfold nonneg. induction 1 as [|[k' v'] m Hk Hm IH]; simpl.
  - by repeat constructor.
  - destruct (decide (k' = k)); constructor; done.
Qed.

Lemma map_get_nonneg m k : nonneg m → 0 ≤ default 0 (map_get m k).
Proof.
  unfold nonneg. induction 1 as [|[k' v'] m Hk Hm IH]; simpl; [lia|].
  destruct (decide (k' = k)); simpl in *; lia.
Qed.

(** ** Invariants of the walk *)

Section invariants.
Variable bal : string → Z.
Variable pointsToSpend : Z.

Lemma WalkInv_init :
  0 ≤ pointsToSpend → WalkInv bal pointsToSpend (mkWalk [] pointsToSpend).
Proof.
  intros Hx. split; simpl; [done|constructor|lia|constructor|intros; lia].
Qed.

Lemma WalkInv_set st k v r :
  WalkInv bal pointsToSpend st →
  0 ≤ r → 0 ≤ v → v ≤ Z.max 0 (bal k) →
  v + r = default 0 (map_get (spendingByPayer st) k) + remainingToSpend st →
  WalkInv bal pointsToSpend (mkWalk (map_set (spendingByPayer st) k v) r).
Proof.
  intros [Hr Hnn Htot Hnd Hceil] Hr' Hv Hvb Hsum. split; simpl.
  - done.
  - by apply map_set_nonneg.
  - rewrite map_set_total. lia.
  - by apply map_set_NoDup.
  - intros q. destruct (decide (k = q)) as [<-|Hne].
    + rewrite map_get_set_eq. simpl. lia.
    + rewrite map_get_set_ne by done. apply Hceil.
Qed.

Lemma process_inv st t :
  WalkInv bal pointsToSpend st → 0 < remainingToSpend st →
  WalkInv bal pointsToSpend (process bal st t).
Proof.
  intros Hinv Hrem.
  pose proof Hinv as [_ Hnn _ _ Hceil0].
  pose proof (map_get_nonneg _ (payer t) Hnn) as Hcur.
  pose proof (Hceil0 (payer t)) as Hceil.
  unfold process.
  destruct (Z.ltb_spec 0 (points t)) as [Hpos|Hneg].
  - destruct (Z.leb_spec 0 (bal (payer t)
                - default 0 (map_get (spendingByPayer st) (payer t))
                - Z.min (points t) (remainingToSpend st))) as [Hok|Hnok].
    + apply WalkInv_set; [done|lia..].
    + destruct (Z.ltb_spec 0 (bal (payer t)
                - default 0 (map_get (spendingByPayer st) (payer t))))
        as [Hmax|Hmax]; [|done].
      apply WalkInv_set; [done|lia..].
  - destruct (Z.ltb_spec 0 (Z.min (Z.abs (points t))
                (default 0 (map_get (spendingByPayer st) (payer t)))))
      as [Hgive|Hgive]; [|done].
    apply WalkInv_set; [done|lia..].
Qed.

Lemma walk_inv st l :
  WalkInv bal pointsToSpend st → WalkInv bal pointsToSpend (walk bal st l).
Proof.
  revert st. induction l as [|t l IH]; intros st Hinv; simpl; [done|].
  destruct (Z.leb_spec (remainingToSpend st) 0) as [|Hrem]; [done|].
  apply IH. by apply process_inv.
Qed.
End invariants.

(** ** The iterations of the walk *)

Lemma walk_done bal st l : remainingToSpend st ≤ 0 → walk bal st l = st.
Proof.
  intros Hrem. destruct l as [|t l]; [done|]. simpl.
  destruct (Z.leb_spec (remainingToSpend st) 0); [done|lia].
Qed.

Lemma walk_app bal st l1 l2 :
  walk bal st (l1 ++ l2) = walk bal (walk bal st l1) l2.
Proof.
  revert st. induction l1 as [|t l1 IH]; intros st; simpl; [done|].
  destruct (Z.leb_spec (remainingToSpend st) 0) as [Hdone|_]; [|apply IH].
  by rewrite walk_done.
Qed.

(** While points remain to be spent, the state after one more iteration
    is the loop body applied to the state before it. *)
Lemma walkAfter_S k x txs t :
  sortTransactions txs !! k = Some t →
  0 < remainingToSpend (walkAfter k x txs) →
  walkAfter (S k) x txs =
  process (λ p, default 0 (payerBalances txs !! p)) (walkAfter k x txs) t.
Proof.
  intros Hk Hrem. unfold walkAfter in *.
  rewrite (take_S_r _ _ _ Hk), walk_app. cbn [walk].
  destruct (Z.leb_spec (remainingToSpend
              (walk (λ p, default 0 (payerBalances txs !! p))
                    (mkWalk [] x) (take k (sortTransactions txs)))) 0);
    [lia|done].
Qed.

(** ** Reading the result off the spending map *)

Lemma toResult_cons k v m :
  toResult ((k, v) :: m) =
  if 0 <? v then mkSpendResult k (- v) :: toResult m else toResult m.
Proof. unfold toResult. simpl. by destruct (0 <? v). Qed.

Lemma toResult_total m : nonneg m → totalDeducted (toResult m) = totalSpending m.
Proof.
  unfold nonneg, totalDeducted.
  induction 1 as [|[k v] m Hk Hm IH]; [done|].
  rewrite toResult_cons. simpl in Hk.
  destruct (Z.ltb_spec 0 v); csimpl; lia.
Qed.

Lemma toResult_negative m : Forall (λ r, result_points r < 0) (toResult m).
Proof.
  induction m as [|[k v] m IH]; [constructor|].
  rewrite toResult_cons. destruct (Z.ltb_spec 0 v); [|done].
  constructor; [simpl; lia|done].
Qed.

(** The payers of the result are the keys of the map, in the order of
    the map, without the keys that hold zero or less. *)
Lemma toResult_payers m :
  result_payer <$> toResult m = (filter (λ kv, 0 < kv.2) m).*1.
Proof.
  induction m as [|[k v] m IH]; [done|].
  rewrite toResult_cons, filter_cons. simpl.
  destruct (Z.ltb_spec 0 v).
  - rewrite decide_True by done. csimpl. by rewrite IH.
  - rewrite decide_False by lia. done.
Qed.

Lemma deductedFrom_absent result p :
  p ∉ result_payer <$> result → deductedFrom result p = 0.
Proof.
  induction result as [|r result IH]; [done|]. csimpl.
  rewrite not_elem_of_cons. intros [Hne Hnot].
  destruct (decide (result_payer r = p)); [congruence|by apply IH].
Qed.

Lemma toResult_payers_sub m p :
  p ∈ result_payer <$> toResult m → p ∈ m.*1.
Proof.
  rewrite toResult_payers. intros Hin.
  apply list_elem_of_fmap in Hin as [[k v] [-> Hin]].
  apply list_elem_of_filter in Hin as [_ Hin].
  apply list_elem_of_fmap. by exists (k, v).
Qed.

(** With one entry per key and no negative value, the result deducts from
    each payer what the map holds for it. *)
Lemma toResult_deductedFrom m p :
  NoDup m.*1 → nonneg m →
  deductedFrom (toResult m) p = default 0 (map_get m p).
Proof.
  unfold nonneg. intros Hnd Hnn. induction Hnn as [|[k v] m Hk Hm IH]; [done|].
  csimpl in Hnd. apply NoDup_cons in Hnd as [Hk' Hnd]. simpl in Hk.
  rewrite toResult_cons. simpl.
  destruct (decide (k = p)) as [->|Hne].
  - destruct (Z.ltb_spec 0 v); simpl.
    + rewrite decide_True by done. lia.
    + rewrite deductedFrom_absent; [lia|].
      intros Hin. by apply toResult_payers_sub in Hin.
  - destruct (Z.ltb_spec 0 v); simpl; [|by apply IH].
    rewrite decide_False by done. by apply IH.
Qed.

Lemma toResult_elem m p :
  NoDup m.*1 →
  p ∈ result_payer <$> toResult m ↔ 0 < default 0 (map_get m p).
Proof.
  intros Hnd. induction m as [|[k v] m IH].
  - simpl. rewrite elem_of_nil. lia.
  - csimpl in Hnd. apply NoDup_cons in Hnd as [Hk Hnd].
    rewrite toResult_cons. simpl.
    destruct (decide (k = p)) as [->|Hne]; simpl.
    + destruct (Z.ltb_spec 0 v); csimpl.
      * rewrite elem_of_cons. split; [done|by left].
      * split; [|lia]. intros Hin. by apply toResult_payers_sub in Hin.
    + destruct (Z.ltb_spec 0 v); csimpl; [|by apply IH].
      rewrite elem_of_cons, IH by done. split; [intros [?|?]; [congruence|done]|by right].
Qed.

(** ** The guards of [spendPoints] *)

Lemma spendPoints_passes now x txs :
  0 ≤ x → x ≤ getTotalPoints txs →
  spendPoints now x txs =
  (inr (toResult (spendingByPayer (finalWalk x txs))),
   txs ++ recordSpending now (toResult (spendingByPayer (finalWalk x txs)))).
Proof.
  intros Hx Htot. unfold spendPoints, guarded.
  destruct (Z.ltb_spec x 0); [lia|].
  destruct (Z.ltb_spec (getTotalPoints txs) x); [lia|]. reflexivity.
Qed.

Lemma spendPoints_success now x txs result txs' :
  spendPoints now x txs = (inr result, txs') →
  0 ≤ x ∧ x ≤ getTotalPoints txs ∧
  result = toResult (spendingByPayer (finalWalk x txs)) ∧
  txs' = txs ++ recordSpending now result.
Proof.
  unfold spendPoints, guarded.
  destruct (Z.ltb_spec x 0); [discriminate|].
  destruct (Z.ltb_spec (getTotalPoints txs) x); [discriminate|].
  unfold allocate. intros [= <- <-]. done.
Qed.

(** A negative amount is refused and the ledger is left as it was. *)
Lemma spendPoints_negative now x txs :
  x < 0 → spendPoints now x txs = (inl PointsMustBePositive, txs).
Proof.
  intros Hx. unfold spendPoints, guarded.
  destruct (Z.ltb_spec x 0); [done|lia].
Qed.

Lemma finalWalk_inv x txs :
  0 ≤ x →
  WalkInv (λ p, default 0 (payerBalances txs !! p)) x (finalWalk x txs).
Proof. intros Hx. apply walk_inv. by apply WalkInv_init. Qed.

Lemma walkAfter_inv k x txs :
  0 ≤ x →
  WalkInv (λ p, default 0 (payerBalances txs !! p)) x (walkAfter k x txs).
Proof. intros Hx. apply walk_inv. by apply WalkInv_init. Qed.

Lemma recordSpending_points now result :
  points <$> recordSpending now result = result_points <$> result.
Proof.
  unfold recordSpending. induction result as [|r result IH]; [done|].
  csimpl. by rewrite IH.
Qed.

(** ** The two guards *)

(** C5, at the amount 0: the first guard tests [pointsToSpend < 0], so a
    call with the amount 0 is not refused with 'Points to spend must be
    positive'; on the empty ledger it returns the empty result. *)
Theorem spend_zero_is_accepted now :
  spendPoints now 0 [] = (inr [], []).
Proof. reflexivity. Qed.

(** C4 as stated fails: on a ledger whose total is -5 the amount -1 exceeds
    the total, and the call is refused by the first guard, not with the
    insufficient-points error. *)
Lemma negative_amount_above_total :
  ¬ (∀ now x txs,
       getTotalPoints txs < x →
       spendPoints now x txs =
       (inl (InsufficientPoints (getTotalPoints txs) x), txs)).
Proof.
  intros H. specialize (H 0 (-1) debt_ledger).
  vm_compute in H. specialize (H eq_refl). discriminate H.
Qed.

(** C4, amended: within the range of exact arithmetic ([safeCall]), a
    call with an amount above the total always throws and leaves the
    ledger as it was; when the amount is not negative the error is the
    insufficient-points error with the total and the amount, and when it
    is negative the error is that of the first guard. *)
Theorem spend_above_total_fails now x txs :
  safeCall x txs →
  getTotalPoints txs < x →
  snd (spendPoints now x txs) = txs ∧
  (0 ≤ x →
   spendPoints now x txs =
   (inl (InsufficientPoints (getTotalPoints txs) x), txs)) ∧
  (x < 0 → spendPoints now x txs = (inl PointsMustBePositive, txs)).
Proof.
  intros _ Hlt. unfold spendPoints, guarded.
  destruct (Z.ltb_spec x 0) as [Hneg|Hpos].
  - split; [done|]. split; [lia|done].
  - destruct (Z.ltb_spec (getTotalPoints txs) x); [|lia].
    split; [done|]. split; [done|lia].
Qed.

Lemma spend_above_total_fails_witness :
  safeCall 6301 [mkTransaction "A" 6300 1] ∧
  getTotalPoints [mkTransaction "A" 6300 1] < 6301 ∧
  snd (spendPoints 7 6301 [mkTransaction "A" 6300 1]) =
    [mkTransaction "A" 6300 1] ∧
  (0 ≤ 6301 →
   spendPoints 7 6301 [mkTransaction "A" 6300 1] =
   (inl (InsufficientPoints (getTotalPoints [mkTransaction "A" 6300 1]) 6301),
    [mkTransaction "A" 6300 1])) ∧
  (6301 < 0 →
   spendPoints 7 6301 [mkTransaction "A" 6300 1] =
   (inl PointsMustBePositive, [mkTransaction "A" 6300 1])).
Proof.
  assert (safeCall 6301 [mkTransaction "A" 6300 1]) as Hsafe
    by (vm_compute; discriminate).
  assert (getTotalPoints [mkTransaction "A" 6300 1] < 6301) as Hlt
    by reflexivity.
  split; [exact Hsafe|]. split; [exact Hlt|].
  exact (spend_above_total_fails 7 6301 [mkTransaction "A" 6300 1] Hsafe Hlt).
Defined.

(** ** The total of the deductions *)

(** C1, at a failing ledger: the ledger holds 60 points and the call for
    60 passes both guards, yet the result deducts 10.  The clamp of the
    draw from "A" to its balance of 50 and the give-back at the debit of
    50 both account for the same debit.  The ledger is the one that
    adding 100 for "A", spending 50 and adding 10 for "B" produce. *)
Theorem spend_allocates_less_than_requested now :
  getTotalPoints debited_ledger = 60 ∧
  spendPoints now 60 debited_ledger =
    (inr [mkSpendResult "B" (-10)],
     debited_ledger ++ [mkTransaction "B" (-10) now]) ∧
  totalDeducted [mkSpendResult "B" (-10)] = 10 ∧
  snd (addTransaction "B" 10 3
         (snd (spendPoints 2 50
                 (snd (addTransaction "A" 100 1 []))))) = debited_ledger.
Proof. repeat split; vm_compute; reflexivity. Qed.

(** C9, amended: in a successful call within the range of exact
    arithmetic ([safeCall]), the counter of points still to spend is not
    negative after any number of iterations, and the absolute values of
    the returned deductions, which are those of the appended events, add
    up to the request less the final counter, hence to the request at
    most. *)
Theorem spend_never_overdeducts now x txs result txs' :
  safeCall x txs →
  spendPoints now x txs = (inr result, txs') →
  (∀ k, 0 ≤ remainingToSpend (walkAfter k x txs)) ∧
  totalDeducted result = x - remainingToSpend (finalWalk x txs) ∧
  totalDeducted result ≤ x ∧
  sumAbs (points <$> drop (length txs) txs') = totalDeducted result.
Proof.
  intros _ Hcall.
  apply spendPoints_success in Hcall as (Hx & _ & -> & ->).
  pose proof (finalWalk_inv x txs Hx) as [Hrem Hnn Htot _ _].
  rewrite toResult_total by done.
  repeat split.
  - intros k. by destruct (walkAfter_inv k x txs Hx).
  - lia.
  - lia.
  - rewrite drop_app_length, recordSpending_points.
    by apply toResult_total.
Qed.

Lemma spend_never_overdeducts_witness :
  safeCall 60 debited_ledger ∧
  spendPoints 9 60 debited_ledger =
    (inr [mkSpendResult "B" (-10)],
     debited_ledger ++ [mkTransaction "B" (-10) 9]) ∧
  (∀ k, 0 ≤ remainingToSpend (walkAfter k 60 debited_ledger)) ∧
  totalDeducted [mkSpendResult "B" (-10)] =
    60 - remainingToSpend (finalWalk 60 debited_ledger) ∧
  totalDeducted [mkSpendResult "B" (-10)] ≤ 60 ∧
  sumAbs (points <$> drop (length debited_ledger)
                       (debited_ledger ++ [mkTransaction "B" (-10) 9])) =
    totalDeducted [mkSpendResult "B" (-10)].
Proof.
  assert (safeCall 60 debited_ledger) as Hsafe
    by (vm_compute; discriminate).
  split; [exact Hsafe|]. split; [vm_compute; reflexivity|].
  apply (spend_never_overdeducts 9 60 debited_ledger
           [mkSpendResult "B" (-10)]
           (debited_ledger ++ [mkTransaction "B" (-10) 9]) Hsafe).
  vm_compute. reflexivity.
Defined.

(** ** The effect on the ledger *)

(** C8: a successful call leaves the events it found as a prefix of the
    ledger and appends one event per entry of the result, in the order of
    the result, with the payer and the negative amount of the entry and
    with the one timestamp of the call. *)
Theorem spend_only_appends now x txs result txs' :
  spendPoints now x txs = (inr result, txs') →
  take (length txs) txs' = txs ∧
  length txs' = (length txs + length result)%nat ∧
  ∀ (i : nat) r,
    result !! i = Some r →
    result_points r < 0 ∧
    txs' !! (length txs + i)%nat =
    Some (mkTransaction (result_payer r) (result_points r) now).
Proof.
  intros Hcall.
  apply spendPoints_success in Hcall as (_ & _ & Hres & ->).
  split; [by rewrite take_app_length|].
  split; [unfold recordSpending; by rewrite length_app, length_map|].
  intros i r Hi. split.
  - pose proof (toResult_negative (spendingByPayer (finalWalk x txs))) as Hneg.
    rewrite <- Hres in Hneg.
    rewrite Forall_forall in Hneg. apply Hneg.
    by apply list_elem_of_lookup_2 in Hi.
  - rewrite lookup_app_r by lia.
    replace (length txs + i - length txs)%nat with i by lia.
    unfold recordSpending.
    change (map ?f result) with (f <$> result).
    by rewrite list_lookup_fmap, Hi.
Qed.

Lemma spend_only_appends_witness :
  spendPoints 9 120 credit_ledger =
    (inr [mkSpendResult "B" (-50); mkSpendResult "A" (-70)],
     credit_ledger ++
     [mkTransaction "B" (-50) 9; mkTransaction "A" (-70) 9]) ∧
  take (length credit_ledger)
       (credit_ledger ++
        [mkTransaction "B" (-50) 9; mkTransaction "A" (-70) 9]) =
    credit_ledger ∧
  length (credit_ledger ++
          [mkTransaction "B" (-50) 9; mkTransaction "A" (-70) 9]) =
    (length credit_ledger
     + length [mkSpendResult "B" (-50); mkSpendResult "A" (-70)])%nat ∧
  ∀ (i : nat) r,
    [mkSpendResult "B" (-50); mkSpendResult "A" (-70)] !! i = Some r →
    result_points r < 0 ∧
    (credit_ledger ++
     [mkTransaction "B" (-50) 9; mkTransaction "A" (-70) 9])
      !! (length credit_ledger + i)%nat =
    Some (mkTransaction (result_payer r) (result_points r) 9).
Proof.
  split; [vm_compute; reflexivity|].
  apply (spend_only_appends 9 120 credit_ledger
           [mkSpendResult "B" (-50); mkSpendResult "A" (-70)]
           (credit_ledger ++
            [mkTransaction "B" (-50) 9; mkTransaction "A" (-70) 9])).
  vm_compute. reflexivity.
Defined.

(** ** The two variants of the service *)

Lemma process_ext bal1 bal2 st t :
  (∀ p, bal1 p = bal2 p) → process bal1 st t = process bal2 st t.
Proof. intros Hbal. unfold process. by rewrite Hbal. Qed.

Lemma walk_ext bal1 bal2 st l :
  (∀ p, bal1 p = bal2 p) → walk bal1 st l = walk bal2 st l.
Proof.
  intros Hbal. revert st. induction l as [|t l IH]; intros st; simpl; [done|].
  destruct (remainingToSpend st <=? 0); [done|].
  by rewrite (process_ext bal1 bal2), IH.
Qed.

(** C10: with the precomputed balance map or with a scan of the ledger
    in every iteration, [spendPoints] returns the same result or throws
    the same error, and leaves the same ledger. *)
Theorem variants_agree now x txs :
  spendPoints now x txs = Unnamed.spendPoints now x txs.
Proof.
  unfold spendPoints, Unnamed.spendPoints. f_equal.
  unfold allocate.
  by rewrite (walk_ext _ (getPayerBalance txs)) by apply payerBalances_lookup.
Qed.

(** ** The ceiling of a payer *)

(** What an iteration over a credit does to the spending of its payer. *)
Lemma process_credit bal st t :
  0 < points t →
  let p := payer t in
  let allocated := default 0 (map_get (spendingByPayer st) p) in
  let draw := Z.min (points t) (remainingToSpend st) in
  let allocated' :=
    default 0 (map_get (spendingByPayer (process bal st t)) p) in
  (0 ≤ bal p - allocated - draw → allocated' = allocated + draw) ∧
  (bal p - allocated - draw < 0 → 0 < bal p - allocated →
   bal p - allocated' = 0) ∧
  (bal p - allocated - draw < 0 → bal p - allocated ≤ 0 →
   allocated' = allocated).
Proof.
  intros Hpos. cbv zeta. unfold process.
  destruct (Z.ltb_spec 0 (points t)) as [_|?]; [|lia].
  destruct (Z.leb_spec 0 (bal (payer t)
              - default 0 (map_get (spendingByPayer st) (payer t))
              - Z.min (points t) (remainingToSpend st))) as [Hok|Hnok].
  - cbn [spendingByPayer]. rewrite map_get_set_eq. simpl. lia.
  - destruct (Z.ltb_spec 0 (bal (payer t)
              - default 0 (map_get (spendingByPayer st) (payer t))))
      as [Hmax|Hmax].
    + cbn [spendingByPayer]. rewrite map_get_set_eq. simpl. lia.
    + lia.
Qed.

(** C3 as stated fails for a payer whose balance is negative: the call
    deducts nothing from it, and 0 exceeds its balance. *)
Lemma nothing_deducted_exceeds_negative_balance :
  ¬ (∀ now x txs result txs' p,
       spendPoints now x txs = (inr result, txs') →
       deductedFrom result p ≤ getPayerBalance txs p).
Proof.
  intros H.
  specialize (H 0 50 overdrawn_ledger [mkSpendResult "B" (-50)]
                (overdrawn_ledger ++ [mkTransaction "B" (-50) 0]) "A" eq_refl).
  vm_compute in H. by apply H.
Qed.

(** C3, amended: in a successful call within the range of exact
    arithmetic ([safeCall]), what is deducted from a payer that has an
    entry in the result, or whose balance is not negative, does not
    exceed the balance that the payer has when the call is made.  In the
    walk, an iteration
    over a credit commits its draw in full when that leaves the balance
    less the spending at zero or more; otherwise it raises the spending
    to the balance, when that raises it, and leaves it alone when it does
    not. *)
Theorem spend_within_balance now x txs result txs' :
  safeCall x txs →
  spendPoints now x txs = (inr result, txs') →
  (∀ p, 0 ≤ getPayerBalance txs p ∨ p ∈ result_payer <$> result →
        deductedFrom result p ≤ getPayerBalance txs p) ∧
  (∀ (k : nat) t,
     sortTransactions txs !! k = Some t →
     0 < remainingToSpend (walkAfter k x txs) →
     0 < points t →
     let p := payer t in
     let balance := getPayerBalance txs p in
     let allocated :=
       default 0 (map_get (spendingByPayer (walkAfter k x txs)) p) in
     let draw := Z.min (points t) (remainingToSpend (walkAfter k x txs)) in
     let allocated' :=
       default 0 (map_get (spendingByPayer (walkAfter (S k) x txs)) p) in
     (0 ≤ balance - allocated - draw → allocated' = allocated + draw) ∧
     (balance - allocated - draw < 0 → 0 < balance - allocated →
      balance - allocated' = 0) ∧
     (balance - allocated - draw < 0 → balance - allocated ≤ 0 →
      allocated' = allocated)).
Proof.
  intros _ Hcall.
  apply spendPoints_success in Hcall as (Hx & _ & -> & ->).
  pose proof (finalWalk_inv x txs Hx) as [_ Hnn _ Hnd Hceil].
  split.
  - intros p Hp. specialize (Hceil p). cbv beta in Hceil.
    rewrite payerBalances_lookup in Hceil.
    rewrite toResult_deductedFrom by done.
    destruct Hp as [Hp|Hp]; [lia|].
    apply toResult_elem in Hp; [lia|done].
  - intros k t Hk Hrem Hpos. cbv zeta.
    rewrite (walkAfter_S k x txs t Hk Hrem), <- payerBalances_lookup.
    exact (process_credit (λ p, default 0 (payerBalances txs !! p))
             (walkAfter k x txs) t Hpos).
Qed.

Lemma spend_within_balance_witness :
  safeCall 50 overdrawn_ledger ∧
  spendPoints 9 50 overdrawn_ledger =
    (inr [mkSpendResult "B" (-50)],
     overdrawn_ledger ++ [mkTransaction "B" (-50) 9]) ∧
  (∀ p, 0 ≤ getPayerBalance overdrawn_ledger p
        ∨ p ∈ result_payer <$> [mkSpendResult "B" (-50)] →
        deductedFrom [mkSpendResult "B" (-50)] p
        ≤ getPayerBalance overdrawn_ledger p) ∧
  (∀ (k : nat) t,
     sortTransactions overdrawn_ledger !! k = Some t →
     0 < remainingToSpend (walkAfter k 50 overdrawn_ledger) →
     0 < points t →
     let p := payer t in
     let balance := getPayerBalance overdrawn_ledger p in
     let allocated :=
       default 0 (map_get (spendingByPayer
                             (walkAfter k 50 overdrawn_ledger)) p) in
     let draw :=
       Z.min (points t) (remainingToSpend (walkAfter k 50 overdrawn_ledger)) in
     let allocated' :=
       default 0 (map_get (spendingByPayer
                             (walkAfter (S k) 50 overdrawn_ledger)) p) in
     (0 ≤ balance - allocated - draw → allocated' = allocated + draw) ∧
     (balance - allocated - draw < 0 → 0 < balance - allocated →
      balance - allocated' = 0) ∧
     (balance - allocated - draw < 0 → balance - allocated ≤ 0 →
      allocated' = allocated)).
Proof.
  assert (safeCall 50 overdrawn_ledger) as Hsafe
    by (vm_compute; discriminate).
  split; [exact Hsafe|]. split; [vm_compute; reflexivity|].
  apply (spend_within_balance 9 50 overdrawn_ledger
           [mkSpendResult "B" (-50)]
           (overdrawn_ledger ++ [mkTransaction "B" (-50) 9]) Hsafe).
  vm_compute. reflexivity.
Defined.

(** ** The order of the result *)

Lemma filter_agree {A} (P Q : A → Prop)
    `{!∀ x, Decision (P x), !∀ x, Decision (Q x)} (l : list A) :
  (∀ x, x ∈ l → P x ↔ Q x) → filter P l = filter Q l.
Proof.
  induction l as [|a l IH]; intros Hagree; [done|].
  rewrite !filter_cons.
  assert (filter P l = filter Q l) as ->.
  { apply IH. intros y Hy. apply Hagree, elem_of_cons. by right. }
  assert (P a ↔ Q a) as Ha by (apply Hagree, elem_of_cons; by left).
  destruct (decide (P a)), (decide (Q a)); tauto.
Qed.

(** The keys that pass into the result, read off the keys of the map. *)
Lemma filter_keys m :
  NoDup m.*1 →
  (filter (λ kv, 0 < kv.2) m).*1 =
  filter (λ p, 0 < default 0 (map_get m p)) m.*1.
Proof.
  induction m as [|[k v] m IH]; intros Hnd; [done|].
  csimpl in Hnd. apply NoDup_cons in Hnd as [Hk Hnd].
  csimpl. rewrite !filter_cons. simpl.
  assert (filter (λ p, 0 < default 0 (if decide (k = p) then Some v
                                      else map_get m p)) m.*1 =
          filter (λ p, 0 < default 0 (map_get m p)) m.*1) as ->.
  { apply filter_agree. intros q Hq.
    destruct (decide (k = q)) as [->|]; [done|tauto]. }
  rewrite <- IH by done.
  destruct (decide (k = k)); [simpl|done].
  destruct (decide (0 < v)); done.
Qed.

(** An iteration that draws enters its payer into the map, unless the
    payer is there; no other iteration changes the keys. *)
Lemma process_keys bal st t :
  0 < remainingToSpend st →
  (spendingByPayer (process bal st t)).*1 =
  if remainingToSpend (process bal st t) <? remainingToSpend st
  then see (spendingByPayer st).*1 (payer t)
  else (spendingByPayer st).*1.
Proof.
  intros Hrem. unfold process.
  destruct (Z.ltb_spec 0 (points t)) as [Hpos|Hneg].
  - destruct (Z.leb_spec 0 (bal (payer t)
                - default 0 (map_get (spendingByPayer st) (payer t))
                - Z.min (points t) (remainingToSpend st))) as [Hok|Hnok].
    + cbn [spendingByPayer remainingToSpend]. rewrite map_set_keys.
      destruct (Z.ltb_spec (remainingToSpend st
                  - Z.min (points t) (remainingToSpend st))
                  (remainingToSpend st)); [done|lia].
    + destruct (Z.ltb_spec 0 (bal (payer t)
                  - default 0 (map_get (spendingByPayer st) (payer t))))
        as [Hmax|Hmax].
      * cbn [spendingByPayer remainingToSpend]. rewrite map_set_keys.
        destruct (Z.ltb_spec (remainingToSpend st
                    - (bal (payer t)
                       - default 0 (map_get (spendingByPayer st) (payer t))))
                    (remainingToSpend st)); [done|lia].
      * destruct (Z.ltb_spec (remainingToSpend st) (remainingToSpend st));
          [lia|done].
  - destruct (Z.ltb_spec 0 (Z.min (Z.abs (points t))
                (default 0 (map_get (spendingByPayer st) (payer t)))))
      as [Hgive|Hgive].
    + cbn [spendingByPayer remainingToSpend]. rewrite map_set_keys.
      destruct (Z.ltb_spec (remainingToSpend st
                  + Z.min (Z.abs (points t))
                      (default 0 (map_get (spendingByPayer st) (payer t))))
                  (remainingToSpend st)); [lia|].
      destruct (map_get (spendingByPayer st) (payer t)) as [v|] eqn:Hget;
        [|simpl in Hgive; lia].
      apply map_get_Some_elem in Hget. by rewrite decide_True.
    + destruct (Z.ltb_spec (remainingToSpend st) (remainingToSpend st));
        [lia|done].
Qed.

Lemma walk_keys bal st l :
  (spendingByPayer (walk bal st l)).*1 =
  foldl see (spendingByPayer st).*1 (drawLog bal st l).
Proof.
  revert st. induction l as [|t l IH]; intros st; simpl; [done|].
  destruct (Z.leb_spec (remainingToSpend st) 0) as [|Hrem]; [done|].
  rewrite foldl_app, IH, process_keys by done.
  by destruct (remainingToSpend (process bal st t) <? remainingToSpend st).
Qed.

Lemma firstDrawn_keys x txs :
  firstDrawn x txs = (spendingByPayer (finalWalk x txs)).*1.
Proof. unfold firstDrawn, firstSeen, finalWalk. by rewrite walk_keys. Qed.



(** ** Ledgers without debits *)

Lemma getPayerBalance_credits l p :
  Forall (λ t, 0 < points t) l → 0 ≤ getPayerBalance l p.
Proof.
  induction 1 as [|t l Ht Hl IH]; [done|].
  rewrite getPayerBalance_cons. destruct (decide (payer t = p)); lia.
Qed.

Lemma getTotalPoints_credits l :
  Forall (λ t, 0 < points t) l → 0 ≤ getTotalPoints l.
Proof.
  induction 1 as [|t l Ht Hl IH]; [done|].
  rewrite getTotalPoints_cons. lia.
Qed.

(** Once nothing remains, greedy drawing draws nothing. *)
Lemma greedyDraws_exhausted l :
  Forall (λ t, 0 < points t) l →
  (∀ p, drawnFrom (greedyDraws 0 l) p = 0) ∧ drawnTotal (greedyDraws 0 l) = 0.
Proof.
  induction 1 as [|t l Ht Hl [IH1 IH2]]; [done|].
  simpl. replace (Z.min (points t) 0) with 0 by lia.
  replace (0 - 0) with 0 by lia. split.
  - intros p. rewrite IH1. destruct (decide (payer t = p)); lia.
  - lia.
Qed.

Lemma greedyDraws_total l :
  Forall (λ t, 0 < points t) l →
  ∀ r, 0 ≤ r → drawnTotal (greedyDraws r l) = Z.min r (getTotalPoints l).
Proof.
  induction 1 as [|t l Ht Hl IH]; intros r Hr.
  - simpl. rewrite getTotalPoints_nil. lia.
  - simpl. rewrite getTotalPoints_cons, IH by lia.
    pose proof (getTotalPoints_credits l Hl). lia.
Qed.

Lemma process_commit bal st t :
  0 < points t →
  0 ≤ bal (payer t) - default 0 (map_get (spendingByPayer st) (payer t))
      - Z.min (points t) (remainingToSpend st) →
  process bal st t =
  mkWalk (map_set (spendingByPayer st) (payer t)
            (default 0 (map_get (spendingByPayer st) (payer t))
             + Z.min (points t) (remainingToSpend st)))
         (remainingToSpend st - Z.min (points t) (remainingToSpend st)).
Proof.
  intros Hpos Hok. unfold process.
  destruct (Z.ltb_spec 0 (points t)); [|lia].
  destruct (Z.leb_spec 0 (bal (payer t)
              - default 0 (map_get (spendingByPayer st) (payer t))
              - Z.min (points t) (remainingToSpend st))); [done|lia].
Qed.

(** On credits that fit under the ceilings of their payers, the walk is
    the greedy drawing. *)
Lemma walk_greedy bal l :
  Forall (λ t, 0 < points t) l →
  ∀ st,
    0 ≤ remainingToSpend st →
    nonneg (spendingByPayer st) →
    (∀ q, default 0 (map_get (spendingByPayer st) q) + getPayerBalance l q
          ≤ bal q) →
    (∀ q, default 0 (map_get (spendingByPayer (walk bal st l)) q) =
          default 0 (map_get (spendingByPayer st) q)
          + drawnFrom (greedyDraws (remainingToSpend st) l) q) ∧
    remainingToSpend (walk bal st l) =
    remainingToSpend st - drawnTotal (greedyDraws (remainingToSpend st) l).
Proof.
  induction 1 as [|t l Ht Hl IH]; intros st Hrem Hnn Hroom.
  - simpl. split; [intros q|]; lia.
  - cbn [walk].
    destruct (Z.leb_spec (remainingToSpend st) 0) as [Hzero|Hleft].
    + replace (remainingToSpend st) with 0 by lia.
      destruct (greedyDraws_exhausted (t :: l)) as [E1 E2];
        [by constructor|].
      split; [intros q; rewrite E1|rewrite E2]; lia.
    + pose proof (Hroom (payer t)) as Hp.
      rewrite getPayerBalance_cons, decide_True in Hp by done.
      pose proof (getPayerBalance_credits l (payer t) Hl) as Hbal.
      pose proof (map_get_nonneg _ (payer t) Hnn) as Hcur.
      rewrite process_commit by lia.
      set (d := Z.min (points t) (remainingToSpend st)).
      set (cur := default 0 (map_get (spendingByPayer st) (payer t))) in *.
      destruct (IH (mkWalk (map_set (spendingByPayer st) (payer t) (cur + d))
                           (remainingToSpend st - d))) as [G1 G2].
      * simpl. lia.
      * simpl. apply map_set_nonneg; [lia|done].
      * intros q. simpl. specialize (Hroom q).
        rewrite getPayerBalance_cons in Hroom.
        destruct (decide (payer t = q)) as [<-|Hne].
        -- rewrite map_get_set_eq. simpl. fold cur in Hroom. lia.
        -- rewrite map_get_set_ne by done. lia.
      * cbn [remainingToSpend spendingByPayer] in G1, G2.
        cbn [greedyDraws drawnFrom drawnTotal]. fold d. split.
        -- intros q. rewrite G1.
           destruct (decide (payer t = q)) as [<-|Hne].
           ++ rewrite map_get_set_eq. simpl. fold cur. lia.
           ++ rewrite map_get_set_ne by done. lia.
        -- rewrite G2. lia.
Qed.

(** C6, amended: on a ledger of credits only and within the range of
    exact arithmetic ([safeCall]), a call for an amount above zero and
    within the total succeeds, and what it deducts from every payer is
    what greedy drawing takes from the payer's events when the events are
    visited by ascending timestamp, equal timestamps in insertion order,
    and each is drawn for the smaller of its amount and what remains; the
    draws add up to the amount, and no payer loses more than its
    balance. *)
Theorem spend_is_greedy_on_credits now x txs :
  safeCall x txs →
  Forall (λ t, 0 < points t) txs →
  0 < x → x ≤ getTotalPoints txs →
  ∃ result,
    spendPoints now x txs = (inr result, txs ++ recordSpending now result) ∧
    StronglySorted earlier (sortTransactions txs) ∧
    sortTransactions txs ≡ₚ txs ∧
    (∀ ts, filter (λ t, timestamp t = ts) (sortTransactions txs) =
           filter (λ t, timestamp t = ts) txs) ∧
    (∀ p, deductedFrom result p =
          drawnFrom (greedyDraws x (sortTransactions txs)) p) ∧
    drawnTotal (greedyDraws x (sortTransactions txs)) = x ∧
    totalDeducted result = x ∧
    (∀ p, deductedFrom result p ≤ getPayerBalance txs p).
Proof.
  intros _ Hcredits Hx Htot.
  exists (toResult (spendingByPayer (finalWalk x txs))).
  assert (Forall (λ t, 0 < points t) (sortTransactions txs)) as Hsorted.
  { by rewrite sortTransactions_perm. }
  pose proof (finalWalk_inv x txs ltac:(lia)) as [Hrem Hnn Hsum Hnd Hceil].
  destruct (walk_greedy (λ p, default 0 (payerBalances txs !! p))
              (sortTransactions txs) Hsorted (mkWalk [] x)) as [G1 G2].
  { simpl. lia. }
  { constructor. }
  { intros q. simpl.
    rewrite payerBalances_lookup,
      (getPayerBalance_perm _ _ q (sortTransactions_perm txs)). lia. }
  fold (finalWalk x txs) in G1, G2. cbn [remainingToSpend spendingByPayer] in G1, G2.
  assert (drawnTotal (greedyDraws x (sortTransactions txs)) = x) as Hall.
  { rewrite greedyDraws_total by (done || lia).
    rewrite (getTotalPoints_perm _ _ (sortTransactions_perm txs)). lia. }
  split; [apply spendPoints_passes; lia|].
  split; [apply sortTransactions_sorted|].
  split; [apply sortTransactions_perm|].
  split; [intros ts; apply sortTransactions_stable|].
  split; [|split; [done|split]].
  - intros p. rewrite toResult_deductedFrom, G1 by done. simpl. lia.
  - rewrite toResult_total by done. lia.
  - intros p. rewrite toResult_deductedFrom by done.
    specialize (Hceil p). cbv beta in Hceil.
    rewrite payerBalances_lookup in Hceil.
    pose proof (getPayerBalance_credits txs p Hcredits). lia.
Qed.

Lemma spend_is_greedy_on_credits_witness :
  safeCall 120 credit_ledger ∧
  Forall (λ t, 0 < points t) credit_ledger ∧
  0 < 120 ∧ 120 ≤ getTotalPoints credit_ledger ∧
  ∃ result,
    spendPoints 9 120 credit_ledger =
      (inr result, credit_ledger ++ recordSpending 9 result) ∧
    StronglySorted earlier (sortTransactions credit_ledger) ∧
    sortTransactions credit_ledger ≡ₚ credit_ledger ∧
    (∀ ts, filter (λ t, timestamp t = ts) (sortTransactions credit_ledger) =
           filter (λ t, timestamp t = ts) credit_ledger) ∧
    (∀ p, deductedFrom result p =
          drawnFrom (greedyDraws 120 (sortTransactions credit_ledger)) p) ∧
    drawnTotal (greedyDraws 120 (sortTransactions credit_ledger)) = 120 ∧
    totalDeducted result = 120 ∧
    (∀ p, deductedFrom result p ≤ getPayerBalance credit_ledger p).
Proof.
  assert (Forall (λ t, 0 < points t) credit_ledger) as Hcredits.
  { repeat constructor. }
  assert (0 < 120) as Hpos by reflexivity.
  assert (120 ≤ getTotalPoints credit_ledger) as Htot.
  { vm_compute. discriminate. }
  assert (safeCall 120 credit_ledger) as Hsafe
    by (vm_compute; discriminate).
  split; [exact Hsafe|].
  split; [exact Hcredits|]. split; [exact Hpos|]. split; [exact Htot|].
  exact (spend_is_greedy_on_credits 9 120 credit_ledger
           Hsafe Hcredits Hpos Htot).
Defined.

(** ** The reference scenario *)

Lemma addAll_app events ledger : addAll events ledger = ledger ++ events.
Proof.
  revert ledger. induction events as [|e events IH]; intros ledger.
  - by rewrite app_nil_r.
  - change (addAll (e :: events) ledger)
      with (addAll events (ledger ++ [mkTransaction (payer e) (points e)
                                                   (timestamp e)])).
    rewrite IH, <- app_assoc. by destruct e.
Qed.

Lemma scenario_orders_complete events :
  scenario ≡ₚ events → events ∈ scenario_orders.
Proof.
  intros Hperm. apply permutations_Permutation in Hperm.
  assert (permutations scenario = scenario_orders) as <-; [|done].
  vm_compute. reflexivity.
Qed.

Lemma scenario_in_every_order now :
  Forall (λ events,
            spendPoints now 5000 events =
              (inr scenario_result,
               events ++ recordSpending now scenario_result) ∧
            getBalances (events ++ recordSpending now scenario_result) =
              scenario_balances)
         scenario_orders.
Proof.
  unfold scenario_orders.
  repeat (apply Forall_cons; split;
          [split;
           [vm_compute; reflexivity
           |apply (bool_decide_eq_true_1 _); vm_compute; reflexivity]|]).
  apply Forall_nil. done.
Qed.

(** C2: when the five events of the scenario have been added to the empty
    ledger, in whatever order, [spendPoints 5000] returns the entries for
    SHOPIFY, EBAY and AMAZON with -100, -200 and -4700, in this order,
    and [getBalances] then gives 1000, 0 and 5300. *)
Theorem scenario_spend_5000 now events :
  scenario ≡ₚ events →
  ∃ txs',
    spendPoints now 5000 (addAll events []) = (inr scenario_result, txs') ∧
    getBalances txs' = scenario_balances.
Proof.
  intros Hperm. apply scenario_orders_complete in Hperm.
  pose proof (scenario_in_every_order now) as Hall.
  rewrite Forall_forall in Hall. apply Hall in Hperm as [Hspend Hbal].
  exists (events ++ recordSpending now scenario_result).
  by rewrite addAll_app.
Qed.

Lemma scenario_spend_5000_witness :
  scenario ≡ₚ scenario ∧
  ∃ txs',
    spendPoints 1800000000000 5000 (addAll scenario []) =
      (inr scenario_result, txs') ∧
    getBalances txs' = scenario_balances.
Proof.
  split; [reflexivity|].
  apply (scenario_spend_5000 1800000000000 scenario). reflexivity.
Defined.

(** * Further properties of the service *)

(** ** [getBalances], [getTotalPoints] and [addTransaction] *)

Lemma getPayerBalance_absent l p :
  p ∉ payer <$> l → getPayerBalance l p = 0.
Proof.
  induction l as [|t l IH]; [done|]. csimpl.
  rewrite not_elem_of_cons. intros [Hne Hnot].
  rewrite getPayerBalance_cons, decide_False by done.
  rewrite IH by done. lia.
Qed.

Lemma getPayerBalance_app l1 l2 p :
  getPayerBalance (l1 ++ l2) p = getPayerBalance l1 p + getPayerBalance l2 p.
Proof.
  induction l1 as [|t l1 IH]; simpl.
  - rewrite getPayerBalance_nil. lia.
  - rewrite !getPayerBalance_cons, IH. lia.
Qed.

Lemma getTotalPoints_app l1 l2 :
  getTotalPoints (l1 ++ l2) = getTotalPoints l1 + getTotalPoints l2.
Proof.
  induction l1 as [|t l1 IH]; simpl.
  - rewrite getTotalPoints_nil. lia.
  - rewrite !getTotalPoints_cons, IH. lia.
Qed.

Lemma getBalances_from (m : gmap string Z) (l : list Transaction) p :
  foldl (λ balances t,
           <[payer t := default 0 (balances !! payer t) + points t]> balances)
        m l !! p =
  if decide (p ∈ payer <$> l)
  then Some (default 0 (m !! p) + getPayerBalance l p)
  else m !! p.
Proof.
  revert m. induction l as [|t l IH]; intros m.
  - simpl. destruct (decide (p ∈ payer <$> [])) as [Hin|_]; [|done].
    by apply elem_of_nil in Hin.
  - cbn [foldl]. rewrite IH, getPayerBalance_cons. csimpl.
    destruct (decide (payer t = p)) as [->|Hne].
    + rewrite lookup_insert_eq. cbn [default].
      rewrite (decide_True (P := p ∈ p :: _)) by (apply elem_of_cons; by left).
      unfold id. destruct (decide (p ∈ payer <$> l)) as [|Hnot].
      * f_equal; lia.
      * rewrite getPayerBalance_absent by done. f_equal; lia.
    + rewrite lookup_insert_ne by done.
      destruct (decide (p ∈ payer <$> l)) as [Hin|Hnot].
      * rewrite decide_True by (apply elem_of_cons; by right).
        f_equal; lia.
      * rewrite decide_False; [done|].
        apply not_elem_of_cons. split; [congruence|done].
Qed.

Lemma getBalances_at txs p :
  getBalances txs !! p =
  if decide (p ∈ payer <$> txs) then Some (getPayerBalance txs p) else None.
Proof.
  unfold getBalances. rewrite getBalances_from, lookup_empty.
  destruct (decide (p ∈ payer <$> txs)); [|done]. simpl. f_equal; lia.
Qed.

(** For a ledger within the range of exact arithmetic whose payers have
    ordinary names, [getBalances] has a key for exactly the payers that
    occur in the ledger, and holds for each the sum of the points of its
    events; a payer without events has no key. *)
Theorem getBalances_lookup txs p :
  safeLedger txs → plainPayers txs →
  getBalances txs !! p =
  if decide (p ∈ payer <$> txs) then Some (getPayerBalance txs p) else None.
Proof. intros _ _. apply getBalances_at. Qed.

Lemma getBalances_lookup_witness :
  safeLedger overdrawn_ledger ∧ plainPayers overdrawn_ledger ∧
  getBalances overdrawn_ledger !! "A" =
  if decide ("A" ∈ payer <$> overdrawn_ledger)
  then Some (getPayerBalance overdrawn_ledger "A") else None.
Proof.
  assert (safeLedger overdrawn_ledger) as Hsafe
    by (vm_compute; discriminate).
  assert (plainPayers overdrawn_ledger) as Hplain
    by (apply (bool_decide_eq_true_1 _); vm_compute; reflexivity).
  split; [exact Hsafe|]. split; [exact Hplain|].
  exact (getBalances_lookup overdrawn_ledger "A" Hsafe Hplain).
Defined.

Lemma getBalances_ext l1 l2 :
  l1 ≡ₚ l2 → getBalances l1 = getBalances l2.
Proof.
  intros Hperm. apply map_eq. intros p.
  rewrite !getBalances_at, (getPayerBalance_perm l1 l2 p Hperm).
  destruct (decide (p ∈ payer <$> l1)) as [Hin|Hnot];
    destruct (decide (p ∈ payer <$> l2)) as [Hin'|Hnot']; try done.
  - destruct Hnot'. by rewrite <- Hperm.
  - destruct Hnot. by rewrite Hperm.
Qed.

(** For ledgers within the range of exact arithmetic whose payers have
    ordinary names, the balances do not depend on the order in which the
    events were added, and neither does the total. *)
Theorem balances_ignore_insertion_order l1 l2 :
  safeLedger l1 → plainPayers l1 →
  l1 ≡ₚ l2 →
  getBalances l1 = getBalances l2 ∧ getTotalPoints l1 = getTotalPoints l2.
Proof.
  intros _ _ Hperm.
  split; [by apply getBalances_ext|by apply getTotalPoints_perm].
Qed.

Lemma balances_ignore_insertion_order_witness :
  safeLedger [mkTransaction "A" 100 2; mkTransaction "B" 50 1] ∧
  plainPayers [mkTransaction "A" 100 2; mkTransaction "B" 50 1] ∧
  [mkTransaction "A" 100 2; mkTransaction "B" 50 1] ≡ₚ
    [mkTransaction "B" 50 1; mkTransaction "A" 100 2] ∧
  getBalances [mkTransaction "A" 100 2; mkTransaction "B" 50 1] =
    getBalances [mkTransaction "B" 50 1; mkTransaction "A" 100 2] ∧
  getTotalPoints [mkTransaction "A" 100 2; mkTransaction "B" 50 1] =
    getTotalPoints [mkTransaction "B" 50 1; mkTransaction "A" 100 2].
Proof.
  assert (safeLedger [mkTransaction "A" 100 2; mkTransaction "B" 50 1])
    as Hsafe by (vm_compute; discriminate).
  assert (plainPayers [mkTransaction "A" 100 2; mkTransaction "B" 50 1])
    as Hplain by (apply (bool_decide_eq_true_1 _); vm_compute; reflexivity).
  split; [exact Hsafe|]. split; [exact Hplain|].
  split; [apply Permutation_swap|].
  apply (balances_ignore_insertion_order
           [mkTransaction "A" 100 2; mkTransaction "B" 50 1]
           [mkTransaction "B" 50 1; mkTransaction "A" 100 2] Hsafe Hplain).
  apply Permutation_swap.
Defined.

Lemma balanceSum_insert (m : gmap string Z) k v :
  balanceSum (<[k := default 0 (m !! k) + v]> m) = balanceSum m + v.
Proof.
  unfold balanceSum.
  assert (∀ (m' : gmap string Z) (j1 j2 : string) (z1 z2 y : Z),
            j1 ≠ j2 → m' !! j1 = Some z1 → m' !! j2 = Some z2 →
            z1 + (z2 + y) = z2 + (z1 + y)) as Hcomm by (intros; lia).
  destruct (m !! k) as [old|] eqn:Hk; cbn [default].
  - rewrite <- insert_delete_eq.
    rewrite map_fold_insert_L; [|by eauto|by apply lookup_delete_eq].
    rewrite (map_fold_delete_L _ _ k old m); [unfold id; lia|by eauto|done].
  - rewrite map_fold_insert_L; [lia|by eauto|done].
Qed.

Lemma balanceSum_from (m : gmap string Z) l :
  balanceSum
    (foldl (λ balances t,
              <[payer t := default 0 (balances !! payer t) + points t]> balances)
           m l) =
  balanceSum m + getTotalPoints l.
Proof.
  revert m. induction l as [|t l IH]; intros m.
  - simpl. rewrite getTotalPoints_nil. lia.
  - cbn [foldl]. rewrite IH, balanceSum_insert, getTotalPoints_cons. lia.
Qed.

(** For a ledger within the range of exact arithmetic whose payers have
    ordinary names, the balances that [getBalances] reports add up to the
    total that the second guard of [spendPoints] compares with the
    request. *)
Theorem balances_add_up_to_total txs :
  safeLedger txs → plainPayers txs →
  balanceSum (getBalances txs) = getTotalPoints txs.
Proof.
  intros _ _. unfold getBalances. rewrite balanceSum_from.
  unfold balanceSum. rewrite map_fold_empty. lia.
Qed.

Lemma balances_add_up_to_total_witness :
  safeLedger overdrawn_ledger ∧ plainPayers overdrawn_ledger ∧
  balanceSum (getBalances overdrawn_ledger) = getTotalPoints overdrawn_ledger.
Proof.
  assert (safeLedger overdrawn_ledger) as Hsafe
    by (vm_compute; discriminate).
  assert (plainPayers overdrawn_ledger) as Hplain
    by (apply (bool_decide_eq_true_1 _); vm_compute; reflexivity).
  split; [exact Hsafe|]. split; [exact Hplain|].
  exact (balances_add_up_to_total overdrawn_ledger Hsafe Hplain).
Defined.

(** [addTransaction] returns the event it stores and puts it at the end
    of the ledger; when the ledger that results is within the range of
    exact arithmetic and its payers have ordinary names, the balance of
    the payer has changed by the points, with no check of their sign, the
    other balances are as they were, and the total has changed by the
    same points. *)
Theorem addTransaction_effect p pts ts txs :
  safeLedger (txs ++ [mkTransaction p pts ts]) →
  plainPayers (txs ++ [mkTransaction p pts ts]) →
  fst (addTransaction p pts ts txs) = mkTransaction p pts ts ∧
  snd (addTransaction p pts ts txs) = txs ++ [mkTransaction p pts ts] ∧
  getBalances (snd (addTransaction p pts ts txs)) =
    <[p := default 0 (getBalances txs !! p) + pts]> (getBalances txs) ∧
  (∀ q, getPayerBalance (snd (addTransaction p pts ts txs)) q =
        getPayerBalance txs q + (if decide (p = q) then pts else 0)) ∧
  getTotalPoints (snd (addTransaction p pts ts txs)) =
    getTotalPoints txs + pts.
Proof.
  intros _ _.
  cbn [addTransaction fst snd]. split; [done|]. split; [done|].
  split; [|split].
  - unfold getBalances. by rewrite foldl_app.
  - intros q. rewrite getPayerBalance_app, getPayerBalance_cons.
    rewrite getPayerBalance_nil. cbn [payer points]. lia.
  - rewrite getTotalPoints_app, getTotalPoints_cons, getTotalPoints_nil.
    cbn [points]. lia.
Qed.

Lemma addTransaction_effect_witness :
  safeLedger (overdrawn_ledger ++ [mkTransaction "A" 30 5]) ∧
  plainPayers (overdrawn_ledger ++ [mkTransaction "A" 30 5]) ∧
  fst (addTransaction "A" 30 5 overdrawn_ledger) = mkTransaction "A" 30 5 ∧
  snd (addTransaction "A" 30 5 overdrawn_ledger) =
    overdrawn_ledger ++ [mkTransaction "A" 30 5] ∧
  getBalances (snd (addTransaction "A" 30 5 overdrawn_ledger)) =
    <["A" := default 0 (getBalances overdrawn_ledger !! "A") + 30]>
      (getBalances overdrawn_ledger) ∧
  (∀ q, getPayerBalance (snd (addTransaction "A" 30 5 overdrawn_ledger)) q =
        getPayerBalance overdrawn_ledger q
        + (if decide ("A" = q) then 30 else 0)) ∧
  getTotalPoints (snd (addTransaction "A" 30 5 overdrawn_ledger)) =
    getTotalPoints overdrawn_ledger + 30.
Proof.
  assert (safeLedger (overdrawn_ledger ++ [mkTransaction "A" 30 5]))
    as Hsafe by (vm_compute; discriminate).
  assert (plainPayers (overdrawn_ledger ++ [mkTransaction "A" 30 5]))
    as Hplain by (apply (bool_decide_eq_true_1 _); vm_compute; reflexivity).
  split; [exact Hsafe|]. split; [exact Hplain|].
  exact (addTransaction_effect "A" 30 5 overdrawn_ledger Hsafe Hplain).
Defined.

(** ** When [spendPoints] succeeds and when it fails *)

(** Within the range of exact arithmetic, a call succeeds exactly when
    the amount is not negative and does not exceed the total of the
    ledger; an amount equal to the total passes. *)
Theorem spendPoints_succeeds_iff now x txs :
  safeCall x txs →
  (∃ result txs', spendPoints now x txs = (inr result, txs')) ↔
  0 ≤ x ∧ x ≤ getTotalPoints txs.
Proof.
  intros _. split.
  - intros (result & txs' & Hcall).
    apply spendPoints_success in Hcall as (? & ? & _). done.
  - intros [Hx Htot]. eexists _, _. by apply spendPoints_passes.
Qed.

Lemma spendPoints_succeeds_iff_witness :
  safeCall 150 credit_ledger ∧
  ((∃ result txs', spendPoints 9 150 credit_ledger = (inr result, txs')) ↔
   0 ≤ 150 ∧ 150 ≤ getTotalPoints credit_ledger).
Proof.
  assert (safeCall 150 credit_ledger) as Hsafe
    by (vm_compute; discriminate).
  split; [exact Hsafe|].
  exact (spendPoints_succeeds_iff 9 150 credit_ledger Hsafe).
Defined.

(** Within the range of exact arithmetic, a call that throws leaves the
    ledger as it found it, and the error tells which guard refused: the
    first for a negative amount, the second, with the total and the
    amount, for an amount above the total. *)
Theorem spendPoints_failure now x txs e txs' :
  safeCall x txs →
  spendPoints now x txs = (inl e, txs') →
  txs' = txs ∧
  ((x < 0 ∧ e = PointsMustBePositive) ∨
   (0 ≤ x ∧ getTotalPoints txs < x ∧
    e = InsufficientPoints (getTotalPoints txs) x)).
Proof.
  intros _. unfold spendPoints, guarded.
  destruct (Z.ltb_spec x 0) as [Hneg|Hpos].
  - intros [= <- <-]. split; [done|]. by left.
  - destruct (Z.ltb_spec (getTotalPoints txs) x) as [Hlt|Hge].
    + intros [= <- <-]. split; [done|]. by right.
    + unfold allocate. discriminate.
Qed.

Lemma spendPoints_failure_witness :
  safeCall 200 credit_ledger ∧
  spendPoints 9 200 credit_ledger =
    (inl (InsufficientPoints 150 200), credit_ledger) ∧
  credit_ledger = credit_ledger ∧
  ((200 < 0 ∧ InsufficientPoints 150 200 = PointsMustBePositive) ∨
   (0 ≤ 200 ∧ getTotalPoints credit_ledger < 200 ∧
    InsufficientPoints 150 200 =
    InsufficientPoints (getTotalPoints credit_ledger) 200)).
Proof.
  assert (safeCall 200 credit_ledger) as Hsafe
    by (vm_compute; discriminate).
  split; [exact Hsafe|]. split; [vm_compute; reflexivity|].
  apply (spendPoints_failure 9 200 credit_ledger
           (InsufficientPoints 150 200) credit_ledger Hsafe).
  vm_compute. reflexivity.
Defined.

(** On a ledger within the range of exact arithmetic, a call for the
    amount 0 passes the first guard: when the total is not negative it
    returns the empty result and appends nothing, and when the total is
    negative it throws the insufficient-points error. *)
Theorem spendPoints_zero now txs :
  safeLedger txs →
  spendPoints now 0 txs =
  if getTotalPoints txs <? 0
  then (inl (InsufficientPoints (getTotalPoints txs) 0), txs)
  else (inr [], txs).
Proof.
  intros _. unfold spendPoints, guarded. cbn [Z.ltb Z.compare].
  destruct (getTotalPoints txs <? 0); [done|].
  unfold allocate. rewrite walk_done by (simpl; lia).
  cbn [spendingByPayer toResult omap recordSpending map list_omap].
  by rewrite app_nil_r.
Qed.

Lemma spendPoints_zero_witness :
  safeLedger debt_ledger ∧
  spendPoints 9 0 debt_ledger =
  if getTotalPoints debt_ledger <? 0
  then (inl (InsufficientPoints (getTotalPoints debt_ledger) 0), debt_ledger)
  else (inr [], debt_ledger).
Proof.
  assert (safeLedger debt_ledger) as Hsafe by (vm_compute; discriminate).
  split; [exact Hsafe|].
  exact (spendPoints_zero 9 debt_ledger Hsafe).
Defined.

(** Within the range of exact arithmetic, when the oldest event is a
    credit that covers the request, and the balance of its payer covers
    it as well, the whole request is taken from that payer, whatever the
    later events are. *)
Theorem oldest_credit_pays_first now x txs t rest :
  safeCall x txs →
  sortTransactions txs = t :: rest →
  0 < x → x ≤ points t →
  x ≤ getPayerBalance txs (payer t) →
  x ≤ getTotalPoints txs →
  spendPoints now x txs =
  (inr [mkSpendResult (payer t) (- x)],
   txs ++ [mkTransaction (payer t) (- x) now]).
Proof.
  intros _ Hsort Hx Hpts Hbal Htot.
  rewrite spendPoints_passes by lia.
  assert (finalWalk x txs = mkWalk [(payer t, x)] 0) as ->.
  { unfold finalWalk. rewrite Hsort. cbn [walk remainingToSpend].
    destruct (Z.leb_spec x 0); [lia|].
    rewrite process_commit.
    - cbn [spendingByPayer remainingToSpend map_get default map_set].
      replace (Z.min (points t) x) with x by lia.
      replace (0 + x) with x by lia. replace (x - x) with 0 by lia.
      by apply walk_done.
    - lia.
    - cbn [spendingByPayer remainingToSpend map_get default].
      rewrite payerBalances_lookup. lia. }
  cbn [spendingByPayer]. rewrite toResult_cons.
  destruct (Z.ltb_spec 0 x); [|lia]. done.
Qed.

Lemma oldest_credit_pays_first_witness :
  safeCall 40 debited_ledger ∧
  sortTransactions debited_ledger =
    mkTransaction "A" 100 1
    :: [mkTransaction "A" (-50) 2; mkTransaction "B" 10 3] ∧
  0 < 40 ∧ 40 ≤ points (mkTransaction "A" 100 1) ∧
  40 ≤ getPayerBalance debited_ledger (payer (mkTransaction "A" 100 1)) ∧
  40 ≤ getTotalPoints debited_ledger ∧
  spendPoints 9 40 debited_ledger =
  (inr [mkSpendResult (payer (mkTransaction "A" 100 1)) (- 40)],
   debited_ledger ++
   [mkTransaction (payer (mkTransaction "A" 100 1)) (- 40) 9]).
Proof.
  assert (sortTransactions debited_ledger =
          mkTransaction "A" 100 1
          :: [mkTransaction "A" (-50) 2; mkTransaction "B" 10 3]) as Hsort
    by reflexivity.
  assert (0 < 40) as Hx by reflexivity.
  assert (40 ≤ points (mkTransaction "A" 100 1)) as Hpts
    by (vm_compute; discriminate).
  assert (40 ≤ getPayerBalance debited_ledger
                 (payer (mkTransaction "A" 100 1))) as Hbal
    by (vm_compute; discriminate).
  assert (40 ≤ getTotalPoints debited_ledger) as Htot
    by (vm_compute; discriminate).
  assert (safeCall 40 debited_ledger) as Hsafe
    by (vm_compute; discriminate).
  repeat (split; [assumption|]).
  exact (oldest_credit_pays_first 9 40 debited_ledger _ _
           Hsafe Hsort Hx Hpts Hbal Htot).
Defined.

(** ** The balances after a successful call *)

Lemma recordSpending_balance now result p :
  NoDup (result_payer <$> result) →
  Forall (λ r, result_points r < 0) result →
  getPayerBalance (recordSpending now result) p = - deductedFrom result p.
Proof.
  intros Hnd Hneg. induction Hneg as [|r result Hr Hneg IH]; [done|].
  csimpl in Hnd. apply NoDup_cons in Hnd as [Hfresh Hnd].
  cbn [recordSpending map deductedFrom].
  rewrite getPayerBalance_cons. cbn [payer points].
  fold (recordSpending now result).
  destruct (decide (result_payer r = p)) as [<-|Hne].
  - rewrite getPayerBalance_absent; [lia|].
    unfold recordSpending. change (map ?f result) with (f <$> result).
    by rewrite <- list_fmap_compose.
  - rewrite IH by done. lia.
Qed.

Lemma recordSpending_total now result :
  Forall (λ r, result_points r < 0) result →
  getTotalPoints (recordSpending now result) = - totalDeducted result.
Proof.
  unfold totalDeducted. induction 1 as [|r result Hr Hneg IH]; [done|].
  cbn [recordSpending map]. rewrite getTotalPoints_cons. cbn [points].
  fold (recordSpending now result). rewrite IH. csimpl. lia.
Qed.

(** The entries of a result as the spending map has them. *)
Lemma toResult_shape m :
  NoDup m.*1 →
  NoDup (result_payer <$> toResult m) ∧
  Forall (λ r, result_points r < 0) (toResult m).
Proof.
  intros Hnd. split; [|apply toResult_negative].
  rewrite toResult_payers, filter_keys by done. by apply NoDup_filter.
Qed.

Lemma spend_balance_after now x txs result txs' p :
  spendPoints now x txs = (inr result, txs') →
  getPayerBalance txs' p = getPayerBalance txs p - deductedFrom result p ∧
  0 ≤ deductedFrom result p ≤ Z.max 0 (getPayerBalance txs p).
Proof.
  intros Hcall.
  apply spendPoints_success in Hcall as (Hx & _ & -> & ->).
  pose proof (finalWalk_inv x txs Hx) as [_ Hnn _ Hnd Hceil].
  destruct (toResult_shape _ Hnd) as [Hnd' Hneg].
  rewrite getPayerBalance_app, recordSpending_balance by done.
  rewrite toResult_deductedFrom by done.
  specialize (Hceil p). cbv beta in Hceil.
  rewrite payerBalances_lookup in Hceil.
  pose proof (map_get_nonneg _ p Hnn). lia.
Qed.

(** An iteration adds at most the payer of a credit to the keys. *)
Lemma process_keys_credit bal st t k :
  k ∈ (spendingByPayer (process bal st t)).*1 →
  k ∈ (spendingByPayer st).*1 ∨ (k = payer t ∧ 0 < points t).
Proof.
  unfold process.
  destruct (Z.ltb_spec 0 (points t)) as [Hpos|Hneg].
  - destruct (0 <=? _).
    + cbn [spendingByPayer]. rewrite map_set_keys.
      destruct (decide (payer t ∈ (spendingByPayer st).*1)); [by left|].
      rewrite elem_of_app, list_elem_of_singleton. intros [?|?]; [by left|by right].
    + destruct (0 <? _); [|by left].
      cbn [spendingByPayer]. rewrite map_set_keys.
      destruct (decide (payer t ∈ (spendingByPayer st).*1)); [by left|].
      rewrite elem_of_app, list_elem_of_singleton. intros [?|?]; [by left|by right].
  - destruct (Z.ltb_spec 0 (Z.min (Z.abs (points t))
                (default 0 (map_get (spendingByPayer st) (payer t)))))
      as [Hgive|Hgive]; [|by left].
    cbn [spendingByPayer]. rewrite map_set_keys.
    destruct (map_get (spendingByPayer st) (payer t)) as [v|] eqn:Hget;
      [|simpl in Hgive; lia].
    apply map_get_Some_elem in Hget. rewrite decide_True by done. by left.
Qed.

Lemma walk_keys_credit bal l :
  ∀ st k,
    k ∈ (spendingByPayer (walk bal st l)).*1 →
    k ∈ (spendingByPayer st).*1 ∨ ∃ t, t ∈ l ∧ payer t = k ∧ 0 < points t.
Proof.
  induction l as [|t l IH]; intros st k; simpl; [by left|].
  destruct (remainingToSpend st <=? 0); [by left|].
  intros Hk. apply IH in Hk as [Hk|(u & Hu & Hp & Hpos)].
  - apply process_keys_credit in Hk as [Hk|[-> Hpos]]; [by left|].
    right. exists t. split; [apply elem_of_cons; by left|done].
  - right. exists u. split; [apply elem_of_cons; by right|done].
Qed.

Lemma result_payer_has_credit now x txs result txs' r :
  spendPoints now x txs = (inr result, txs') →
  r ∈ result →
  ∃ t, t ∈ txs ∧ payer t = result_payer r ∧ 0 < points t.
Proof.
  intros Hcall Hr.
  apply spendPoints_success in Hcall as (_ & _ & -> & _).
  assert (result_payer r ∈
          (spendingByPayer (finalWalk x txs)).*1) as Hkey.
  { apply toResult_payers_sub. by apply list_elem_of_fmap_2. }
  apply walk_keys_credit in Hkey as [Hkey|(t & Ht & Hp & Hpos)].
  - by apply elem_of_nil in Hkey.
  - exists t. split; [|done]. by rewrite <- (sortTransactions_perm txs).
Qed.

(** After a successful call within the range of exact arithmetic, on a
    ledger whose payers have ordinary names, every balance is the balance
    before less what the result deducts from the payer, the total is the
    total before less the sum of the deductions, and [getBalances] has
    the keys it had. *)
Theorem spend_updates_balances now x txs result txs' :
  safeCall x txs → plainPayers txs →
  spendPoints now x txs = (inr result, txs') →
  (∀ p, getPayerBalance txs' p =
        getPayerBalance txs p - deductedFrom result p) ∧
  getTotalPoints txs' = getTotalPoints txs - totalDeducted result ∧
  dom (getBalances txs') = dom (getBalances txs).
Proof.
  intros _ _ Hcall. split; [|split].
  - intros p. by destruct (spend_balance_after now x txs result txs' p Hcall).
  - pose proof Hcall as Hcall'.
    apply spendPoints_success in Hcall' as (Hx & _ & -> & ->).
    pose proof (finalWalk_inv x txs Hx) as [_ _ _ Hnd _].
    rewrite getTotalPoints_app, recordSpending_total; [lia|].
    apply toResult_negative.
  - apply set_eq. intros p. rewrite !elem_of_dom, !getBalances_at.
    pose proof Hcall as Hcall'.
    apply spendPoints_success in Hcall' as (_ & _ & _ & ->).
    assert (p ∈ payer <$> txs ++ recordSpending now result ↔
            p ∈ payer <$> txs) as Hiff.
    { rewrite fmap_app, elem_of_app. split; [|by left].
      intros [Hin|Hin]; [done|].
      unfold recordSpending in Hin.
      change (map ?f result) with (f <$> result) in Hin.
      rewrite <- list_fmap_compose in Hin.
      apply list_elem_of_fmap in Hin as (r & -> & Hr).
      destruct (result_payer_has_credit now x txs result _ r Hcall Hr)
        as (t & Ht & Hp & _).
      cbn. rewrite <- Hp. by apply list_elem_of_fmap_2. }
    destruct (decide (p ∈ payer <$> txs ++ recordSpending now result)),
             (decide (p ∈ payer <$> txs)); try tauto.
    split; intros _; eauto.
Qed.

Lemma spend_updates_balances_witness :
  safeCall 120 credit_ledger ∧ plainPayers credit_ledger ∧
  spendPoints 9 120 credit_ledger =
    (inr [mkSpendResult "B" (-50); mkSpendResult "A" (-70)],
     credit_ledger ++
     [mkTransaction "B" (-50) 9; mkTransaction "A" (-70) 9]) ∧
  (∀ p, getPayerBalance
          (credit_ledger ++
           [mkTransaction "B" (-50) 9; mkTransaction "A" (-70) 9]) p =
        getPayerBalance credit_ledger p
        - deductedFrom [mkSpendResult "B" (-50); mkSpendResult "A" (-70)] p) ∧
  getTotalPoints
    (credit_ledger ++
     [mkTransaction "B" (-50) 9; mkTransaction "A" (-70) 9]) =
    getTotalPoints credit_ledger
    - totalDeducted [mkSpendResult "B" (-50); mkSpendResult "A" (-70)] ∧
  dom (getBalances
         (credit_ledger ++
          [mkTransaction "B" (-50) 9; mkTransaction "A" (-70) 9])) =
    dom (getBalances credit_ledger).
Proof.
  assert (safeCall 120 credit_ledger) as Hsafe
    by (vm_compute; discriminate).
  assert (plainPayers credit_ledger) as Hplain
    by (apply (bool_decide_eq_true_1 _); vm_compute; reflexivity).
  split; [exact Hsafe|]. split; [exact Hplain|].
  split; [vm_compute; reflexivity|].
  apply (spend_updates_balances 9 120 credit_ledger
           [mkSpendResult "B" (-50); mkSpendResult "A" (-70)]
           (credit_ledger ++
            [mkTransaction "B" (-50) 9; mkTransaction "A" (-70) 9])
           Hsafe Hplain).
  vm_compute. reflexivity.
Defined.

(** A successful call within the range of exact arithmetic leaves no
    balance negative that was not negative before, and leaves a negative
    balance as it was. *)
Theorem spend_keeps_balances_nonnegative now x txs result txs' :
  safeCall x txs →
  spendPoints now x txs = (inr result, txs') →
  ∀ p,
    (0 ≤ getPayerBalance txs p → 0 ≤ getPayerBalance txs' p) ∧
    (getPayerBalance txs p < 0 →
     getPayerBalance txs' p = getPayerBalance txs p).
Proof.
  intros _ Hcall p.
  destruct (spend_balance_after now x txs result txs' p Hcall) as [-> Hded].
  split; intros; lia.
Qed.

Lemma spend_keeps_balances_nonnegative_witness :
  safeCall 50 overdrawn_ledger ∧
  spendPoints 9 50 overdrawn_ledger =
    (inr [mkSpendResult "B" (-50)],
     overdrawn_ledger ++ [mkTransaction "B" (-50) 9]) ∧
  ∀ p,
    (0 ≤ getPayerBalance overdrawn_ledger p →
     0 ≤ getPayerBalance
           (overdrawn_ledger ++ [mkTransaction "B" (-50) 9]) p) ∧
    (getPayerBalance overdrawn_ledger p < 0 →
     getPayerBalance (overdrawn_ledger ++ [mkTransaction "B" (-50) 9]) p =
     getPayerBalance overdrawn_ledger p).
Proof.
  assert (safeCall 50 overdrawn_ledger) as Hsafe
    by (vm_compute; discriminate).
  split; [exact Hsafe|]. split; [vm_compute; reflexivity|].
  apply (spend_keeps_balances_nonnegative 9 50 overdrawn_ledger
           [mkSpendResult "B" (-50)]
           (overdrawn_ledger ++ [mkTransaction "B" (-50) 9]) Hsafe).
  vm_compute. reflexivity.
Defined.

(** A successful call deducts only from payers that have a credit in the
    ledger: every entry of the result names the payer of some event with
    a positive amount. *)
Theorem spend_deducts_from_credited_payers now x txs result txs' :
  spendPoints now x txs = (inr result, txs') →
  ∀ r, r ∈ result →
       ∃ t, t ∈ txs ∧ payer t = result_payer r ∧ 0 < points t.
Proof.
  intros Hcall r Hr. by eapply result_payer_has_credit.
Qed.

Lemma spend_deducts_from_credited_payers_witness :
  spendPoints 9 50 overdrawn_ledger =
    (inr [mkSpendResult "B" (-50)],
     overdrawn_ledger ++ [mkTransaction "B" (-50) 9]) ∧
  ∀ r, r ∈ [mkSpendResult "B" (-50)] →
       ∃ t, t ∈ overdrawn_ledger ∧ payer t = result_payer r ∧ 0 < points t.
Proof.
  split; [vm_compute; reflexivity|].
  apply (spend_deducts_from_credited_payers 9 50 overdrawn_ledger
           [mkSpendResult "B" (-50)]
           (overdrawn_ledger ++ [mkTransaction "B" (-50) 9])).
  vm_compute. reflexivity.
Defined.

(** ** Spending the whole total *)

(** When the request covers the total, greedy drawing takes every credit
    whole. *)
Lemma greedyDraws_all l :
  Forall (λ t, 0 < points t) l →
  ∀ r p, getTotalPoints l ≤ r →
         drawnFrom (greedyDraws r l) p = getPayerBalance l p.
Proof.
  induction 1 as [|t l Ht Hl IH]; intros r p Hr; [done|].
  rewrite getTotalPoints_cons in Hr.
  pose proof (getTotalPoints_credits l Hl).
  cbn [greedyDraws drawnFrom]. rewrite getPayerBalance_cons.
  replace (Z.min (points t) r) with (points t) by lia.
  rewrite IH by lia. done.
Qed.

(** On a ledger of credits only, when the call is within the range of
    exact arithmetic, a call for the whole total succeeds and leaves every
    balance and the total at zero, so that every later call for a safe
    amount above zero is refused for insufficient points. *)
Theorem spend_total_drains now txs :
  safeCall (getTotalPoints txs) txs →
  Forall (λ t, 0 < points t) txs →
  ∃ result txs',
    spendPoints now (getTotalPoints txs) txs = (inr result, txs') ∧
    (∀ p, getPayerBalance txs' p = 0) ∧
    getTotalPoints txs' = 0 ∧
    ∀ now' y, 0 < y → y ≤ MAX_SAFE_INTEGER →
              spendPoints now' y txs' = (inl (InsufficientPoints 0 y), txs').
Proof.
  intros _ Hcredits.
  pose proof (getTotalPoints_credits txs Hcredits) as Htot.
  set (x := getTotalPoints txs) in *.
  assert (spendPoints now x txs =
          (inr (toResult (spendingByPayer (finalWalk x txs))),
           txs ++ recordSpending now
                    (toResult (spendingByPayer (finalWalk x txs)))))
    as Hcall by (apply spendPoints_passes; lia).
  eexists _, _. split; [exact Hcall|].
  assert (Forall (λ t, 0 < points t) (sortTransactions txs)) as Hsorted.
  { by rewrite sortTransactions_perm. }
  pose proof (finalWalk_inv x txs Htot) as [Hrem Hnn Hsum Hnd Hceil].
  destruct (walk_greedy (λ p, default 0 (payerBalances txs !! p))
              (sortTransactions txs) Hsorted (mkWalk [] x)) as [G1 G2].
  { simpl. lia. }
  { constructor. }
  { intros q. simpl.
    rewrite payerBalances_lookup,
      (getPayerBalance_perm _ _ q (sortTransactions_perm txs)). lia. }
  fold (finalWalk x txs) in G1, G2.
  cbn [remainingToSpend spendingByPayer] in G1, G2.
  assert (getTotalPoints
            (txs ++ recordSpending now
                      (toResult (spendingByPayer (finalWalk x txs)))) = 0)
    as Hzero.
  { rewrite getTotalPoints_app, recordSpending_total
      by apply toResult_negative.
    rewrite toResult_total by done.
    rewrite greedyDraws_total in G2 by (done || lia).
    rewrite (getTotalPoints_perm _ _ (sortTransactions_perm txs)) in G2.
    fold x in G2. lia. }
  split; [|split; [exact Hzero|]].
  - intros p.
    destruct (spend_balance_after now x txs _ _ p Hcall) as [-> _].
    rewrite toResult_deductedFrom, G1 by done.
    rewrite greedyDraws_all.
    + rewrite (getPayerBalance_perm _ _ p (sortTransactions_perm txs)).
      simpl. lia.
    + done.
    + rewrite (getTotalPoints_perm _ _ (sortTransactions_perm txs)).
      fold x. lia.
  - intros now' y Hy _. unfold spendPoints, guarded.
    destruct (Z.ltb_spec y 0); [lia|].
    rewrite Hzero. destruct (Z.ltb_spec 0 y); [done|lia].
Qed.

Lemma spend_total_drains_witness :
  safeCall (getTotalPoints credit_ledger) credit_ledger ∧
  Forall (λ t, 0 < points t) credit_ledger ∧
  ∃ result txs',
    spendPoints 9 (getTotalPoints credit_ledger) credit_ledger =
      (inr result, txs') ∧
    (∀ p, getPayerBalance txs' p = 0) ∧
    getTotalPoints txs' = 0 ∧
    ∀ now' y, 0 < y → y ≤ MAX_SAFE_INTEGER →
              spendPoints now' y txs' = (inl (InsufficientPoints 0 y), txs').
Proof.
  assert (safeCall (getTotalPoints credit_ledger) credit_ledger) as Hsafe
    by (vm_compute; discriminate).
  assert (Forall (λ t, 0 < points t) credit_ledger) as Hcredits.
  { repeat constructor. }
  split; [exact Hsafe|]. split; [exact Hcredits|].
  exact (spend_total_drains 9 credit_ledger Hsafe Hcredits).
Defined.

(** ** The order of the walk *)

Lemma insert_by_time_first t l :
  Forall (earlier t) l → insert_by_time t l = t :: l.
Proof.
  destruct 1 as [|u l Hu _]; [done|]. simpl.
  unfold earlier in Hu. destruct (Z.leb_spec (timestamp t) (timestamp u));
    [done|lia].
Qed.

Lemma sortTransactions_fixed l :
  StronglySorted earlier l → sortTransactions l = l.
Proof.
  induction 1 as [|t l Hl IH Ht]; [done|].
  simpl. fold (sortTransactions l). rewrite IH.
  by apply insert_by_time_first.
Qed.

(** The walk visits the events by ascending timestamp: the sorted copy
    holds the events of the ledger, each as often as the ledger does, no
    event before one with a smaller timestamp, and events with equal
    timestamps in the order in which they were added; sorting the copy
    again changes nothing. *)
Theorem sortTransactions_chronological txs :
  StronglySorted earlier (sortTransactions txs) ∧
  sortTransactions txs ≡ₚ txs ∧
  (∀ ts, filter (λ t, timestamp t = ts) (sortTransactions txs) =
         filter (λ t, timestamp t = ts) txs) ∧
  sortTransactions (sortTransactions txs) = sortTransactions txs.
Proof.
  split; [apply sortTransactions_sorted|].
  split; [apply sortTransactions_perm|].
  split; [intros ts; apply sortTransactions_stable|].
  apply sortTransactions_fixed, sortTransactions_sorted.
Qed.

(** When the events were added in the order of their timestamps, the walk
    visits them in the order of the ledger. *)
Theorem sortTransactions_of_chronological txs :
  StronglySorted earlier txs → sortTransactions txs = txs.
Proof. apply sortTransactions_fixed. Qed.

Lemma sortTransactions_of_chronological_witness :
  StronglySorted earlier debited_ledger ∧
  sortTransactions debited_ledger = debited_ledger.
Proof.
  assert (StronglySorted earlier debited_ledger) as Hsorted.
  { repeat constructor; unfold earlier; simpl; discriminate. }
  split; [exact Hsorted|].
  exact (sortTransactions_of_chronological debited_ledger Hsorted).
Defined.

(** * The range of exact arithmetic *)

(** ** The numbers that the code forms are safe integers *)

Lemma sumAbs_nonneg l : 0 ≤ sumAbs l.
Proof. induction l as [|z l IH]; simpl; lia. Qed.

Lemma sumAbs_points_cons t l :
  sumAbs (points <$> t :: l) = Z.abs (points t) + sumAbs (points <$> l).
Proof. reflexivity. Qed.

Lemma sumAbs_points_app l1 l2 :
  sumAbs (points <$> l1 ++ l2) =
  sumAbs (points <$> l1) + sumAbs (points <$> l2).
Proof.
  induction l1 as [|t l1 IH]; [simpl; lia|].
  cbn [app]. rewrite !sumAbs_points_cons, IH. lia.
Qed.

Lemma sumAbs_points_perm l1 l2 :
  l1 ≡ₚ l2 → sumAbs (points <$> l1) = sumAbs (points <$> l2).
Proof.
  induction 1 as [|t l1 l2 _ IH|t u l|l1 l2 l3 _ IH1 _ IH2];
    rewrite ?sumAbs_points_cons; lia.
Qed.

Lemma sumAbs_points_filter (P : Transaction → Prop)
    `{!∀ t, Decision (P t)} l :
  sumAbs (points <$> filter P l) ≤ sumAbs (points <$> l).
Proof.
  induction l as [|t l IH]; [done|].
  rewrite filter_cons, sumAbs_points_cons.
  destruct (decide (P t)); rewrite ?sumAbs_points_cons; lia.
Qed.

Lemma sumAbs_points_take k l :
  sumAbs (points <$> take k l) ≤ sumAbs (points <$> l).
Proof.
  rewrite <- (take_drop k l) at 2. rewrite sumAbs_points_app.
  pose proof (sumAbs_nonneg (points <$> drop k l)). lia.
Qed.

Lemma sumAbs_points_elem t l :
  t ∈ l → Z.abs (points t) ≤ sumAbs (points <$> l).
Proof.
  induction l as [|u l IH]; [by intros ?%elem_of_nil|].
  rewrite elem_of_cons, sumAbs_points_cons.
  pose proof (sumAbs_nonneg (points <$> l)).
  intros [->|Hin]; [lia|]. apply IH in Hin. lia.
Qed.

Lemma getTotalPoints_range l :
  Z.abs (getTotalPoints l) ≤ sumAbs (points <$> l).
Proof.
  induction l as [|t l IH]; [done|].
  rewrite getTotalPoints_cons, sumAbs_points_cons. lia.
Qed.

Lemma getPayerBalance_range l p :
  Z.abs (getPayerBalance l p) ≤ sumAbs (points <$> l).
Proof.
  induction l as [|t l IH]; [done|].
  rewrite getPayerBalance_cons, sumAbs_points_cons.
  destruct (decide (payer t = p)); lia.
Qed.

(** Every partial sum that [getTotalPoints], [getPayerBalance],
    [payerBalances] and [getBalances] pass through on a safe ledger is a
    safe integer. *)
Lemma ledger_sums_in_range txs :
  safeLedger txs →
  ∀ k p,
    Z.abs (getTotalPoints (take k txs)) ≤ MAX_SAFE_INTEGER ∧
    Z.abs (getPayerBalance (take k txs) p) ≤ MAX_SAFE_INTEGER.
Proof.
  unfold safeLedger. intros Hsafe k p.
  pose proof (sumAbs_points_take k txs).
  pose proof (getTotalPoints_range (take k txs)).
  pose proof (getPayerBalance_range (take k txs) p). lia.
Qed.

Lemma map_get_le_total m p :
  nonneg m → default 0 (map_get m p) ≤ totalSpending m.
Proof.
  unfold nonneg. induction 1 as [|[k v] m Hk Hm IH]; simpl; [lia|].
  simpl in Hk. destruct (decide (k = p)); simpl.
  - assert (0 ≤ totalSpending m); [|lia].
    clear -Hm. induction Hm as [|[k' v'] m Hk' Hm IH]; simpl in *; lia.
  - lia.
Qed.

(** In a safe call, the counter and every spending stay between zero and
    the request throughout the walk, and the balances and the points of
    the events are bounded by the ledger, so that every sum and difference
    that the loop body forms is a safe integer. *)
Lemma walk_values_in_range x txs :
  safeCall x txs → 0 ≤ x →
  ∀ k p,
    0 ≤ remainingToSpend (walkAfter k x txs) ∧
    0 ≤ default 0 (map_get (spendingByPayer (walkAfter k x txs)) p) ∧
    default 0 (map_get (spendingByPayer (walkAfter k x txs)) p)
    + remainingToSpend (walkAfter k x txs) ≤ x ∧
    Z.abs (getPayerBalance txs p) + x ≤ MAX_SAFE_INTEGER.
Proof.
  unfold safeCall. intros Hsafe Hx k p.
  pose proof (walkAfter_inv k x txs Hx) as [Hrem Hnn Hsum _ _].
  pose proof (map_get_nonneg _ p Hnn).
  pose proof (map_get_le_total _ p Hnn).
  pose proof (getPayerBalance_range txs p). lia.
Qed.

(** A successful safe call leaves a safe ledger. *)
Lemma spend_keeps_ledger_safe now x txs result txs' :
  safeCall x txs →
  spendPoints now x txs = (inr result, txs') →
  safeLedger txs'.
Proof.
  unfold safeCall, safeLedger. intros Hsafe Hcall.
  apply spendPoints_success in Hcall as (Hx & _ & -> & ->).
  pose proof (finalWalk_inv x txs Hx) as [Hrem Hnn Hsum _ _].
  rewrite sumAbs_points_app, recordSpending_points.
  fold (totalDeducted (toResult (spendingByPayer (finalWalk x txs)))).
  rewrite toResult_total by done. lia.
Qed.

(** ** The service with rounded arithmetic *)

Lemma binary64_exact : exactOnSafe binary64.
Proof.
  intros z Hz. unfold binary64, MAX_SAFE_INTEGER in *.
  destruct (Z.ltb_spec (Z.abs z) (2 ^ 53)); [done|lia].
Qed.

(** Above the safe range the rounding shows: in the call for 2^53 + 4 on
    a credit of 1 followed by a credit of 2^53 + 4, the total rounds to
    the request, the counter is not lowered by the draw of 1, and the
    deductions add up to one more than the request.  The hypotheses
    [safeLedger] and [safeCall] keep the statements away from such
    calls. *)
Lemma rounding_above_safe_range now :
  Rounded.getTotalPoints binary64 unsafe_ledger = 2 ^ 53 + 4 ∧
  Rounded.spendPoints binary64 now (2 ^ 53 + 4) unsafe_ledger =
    (inr [mkSpendResult "A" (-1); mkSpendResult "B" (- (2 ^ 53 + 4))],
     unsafe_ledger ++
     [mkTransaction "A" (-1) now; mkTransaction "B" (- (2 ^ 53 + 4)) now]) ∧
  ¬ safeCall (2 ^ 53 + 4) unsafe_ledger.
Proof.
  split; [vm_compute; reflexivity|].
  split; [vm_compute; reflexivity|].
  unfold safeCall. vm_compute. intros H. by apply H.
Qed.

(** C9 as stated fails above the safe range: in the call for 2^53 + 4 on
    a credit of 1 followed by a credit of 2^53 + 4, the subtraction of the
    draw of 1 from the counter rounds back to the counter, and the
    deductions add up to 2^53 + 5. *)
Lemma rounded_spend_overdeducts :
  ¬ (∀ now x txs result txs',
       Rounded.spendPoints binary64 now x txs = (inr result, txs') →
       totalDeducted result ≤ x).
Proof.
  intros H.
  destruct (rounding_above_safe_range 0) as (_ & Hcall & _).
  apply H in Hcall. vm_compute in Hcall. by apply Hcall.
Qed.

(** C6 as stated fails above the safe range: on the same ledger, which
    holds credits only and whose events add up to 2^53 + 5, the call for
    2^53 + 4 does not stop at the request. *)
Lemma rounded_spend_not_exhausted_exactly :
  ¬ (∀ now x txs,
       Forall (λ t, 0 < points t) txs →
       0 < x → x ≤ getTotalPoints txs →
       ∃ result txs',
         Rounded.spendPoints binary64 now x txs = (inr result, txs') ∧
         totalDeducted result = x).
Proof.
  intros H.
  destruct (H 0 (2 ^ 53 + 4) unsafe_ledger) as (result & txs' & Hcall & Hsum).
  - repeat constructor.
  - reflexivity.
  - vm_compute. discriminate.
  - destruct (rounding_above_safe_range 0) as (_ & Hcall' & _).
    rewrite Hcall' in Hcall. injection Hcall as <- <-.
    vm_compute in Hsum. discriminate Hsum.
Qed.

(** Two more calls above the safe range.  On a credit of 2^53 and a
    credit of 3 the events add up to 2^53 + 3, the total of the code
    rounds to 2^53 + 4, and the call for 2^53 + 4 passes the second guard.
    On two credits of 1 and 2^53 + 2 for one payer, whose events add up
    to 2^53 + 3, the call for 2^53 + 4 deducts 2^53 + 4 from the payer. *)
Lemma rounding_passes_the_guard now :
  getTotalPoints [mkTransaction "A" (2 ^ 53) 1; mkTransaction "B" 3 2]
    < 2 ^ 53 + 4 ∧
  ∃ result txs',
    Rounded.spendPoints binary64 now (2 ^ 53 + 4)
      [mkTransaction "A" (2 ^ 53) 1; mkTransaction "B" 3 2] =
    (inr result, txs').
Proof. split; [reflexivity|]. eexists _, _. vm_compute. reflexivity. Qed.

Lemma rounding_deducts_above_balance now :
  getPayerBalance
    [mkTransaction "P" 1 1; mkTransaction "P" (2 ^ 53 + 2) 3] "P"
    = 2 ^ 53 + 3 ∧
  ∃ txs',
    Rounded.spendPoints binary64 now (2 ^ 53 + 4)
      [mkTransaction "P" 1 1; mkTransaction "P" (2 ^ 53 + 2) 3] =
    (inr [mkSpendResult "P" (- (2 ^ 53 + 4))], txs').
Proof. split; [reflexivity|]. eexists. vm_compute. reflexivity. Qed.

Section rounding.
Variable fl : Z → Z.
Hypothesis fl_exact : exactOnSafe fl.

Lemma rounded_sum_exact a l :
  Z.abs a + sumAbs (points <$> l) ≤ MAX_SAFE_INTEGER →
  foldl (λ sum t, fl (sum + points t)) a l =
  foldl (λ sum t, sum + points t) a l.
Proof.
  revert a. induction l as [|t l IH]; intros a Ha; [done|].
  rewrite sumAbs_points_cons in Ha.
  pose proof (sumAbs_nonneg (points <$> l)).
  cbn [foldl]. rewrite fl_exact by lia. apply IH. lia.
Qed.

Lemma rounded_getTotalPoints_exact txs :
  safeLedger txs → Rounded.getTotalPoints fl txs = getTotalPoints txs.
Proof.
  intros Hsafe. apply rounded_sum_exact. unfold safeLedger in Hsafe. lia.
Qed.

Lemma rounded_getPayerBalance_exact txs p :
  safeLedger txs → Rounded.getPayerBalance fl txs p = getPayerBalance txs p.
Proof.
  intros Hsafe. apply rounded_sum_exact. unfold safeLedger in Hsafe.
  pose proof (sumAbs_points_filter (λ t, payer t = p) txs). lia.
Qed.

Lemma rounded_balances_exact (m : gmap string Z) b l :
  (∀ p, Z.abs (default 0 (m !! p)) ≤ b) →
  b + sumAbs (points <$> l) ≤ MAX_SAFE_INTEGER →
  foldl (λ balances t,
           <[payer t := fl (default 0 (balances !! payer t) + points t)]>
             balances) m l =
  foldl (λ balances t,
           <[payer t := default 0 (balances !! payer t) + points t]>
             balances) m l.
Proof.
  revert m b. induction l as [|t l IH]; intros m b Hm Hb; [done|].
  rewrite sumAbs_points_cons in Hb.
  pose proof (sumAbs_nonneg (points <$> l)).
  pose proof (Hm (payer t)).
  cbn [foldl]. rewrite fl_exact by lia.
  apply (IH _ (b + Z.abs (points t))); [|lia].
  intros p. destruct (decide (payer t = p)) as [<-|Hne].
  - rewrite lookup_insert_eq. simpl. lia.
  - rewrite lookup_insert_ne by done. specialize (Hm p). lia.
Qed.

Lemma rounded_payerBalances_exact txs :
  safeLedger txs → Rounded.payerBalances fl txs = payerBalances txs.
Proof.
  intros Hsafe. apply (rounded_balances_exact ∅ 0); [|exact Hsafe].
  intros p. rewrite lookup_empty. simpl. lia.
Qed.

Lemma rounded_getBalances_exact txs :
  safeLedger txs → Rounded.getBalances fl txs = getBalances txs.
Proof.
  intros Hsafe. apply (rounded_balances_exact ∅ 0); [|exact Hsafe].
  intros p. rewrite lookup_empty. simpl. lia.
Qed.

(** The loop body rounds nothing when the counter and the spending of the
    payer are between zero and the request, and the balance and the points
    are bounded by [b], with [b] and the request adding up to a safe
    integer. *)
Lemma rounded_process_exact bal x b st t :
  b + x ≤ MAX_SAFE_INTEGER →
  Z.abs (bal (payer t)) ≤ b →
  Z.abs (points t) ≤ b →
  0 ≤ remainingToSpend st →
  0 ≤ default 0 (map_get (spendingByPayer st) (payer t)) →
  default 0 (map_get (spendingByPayer st) (payer t)) + remainingToSpend st
  ≤ x →
  Rounded.process fl bal st t = process bal st t.
Proof.
  intros Hb Hbal Hpts Hrem Hcur Hsum.
  unfold Rounded.process, process.
  set (cur := default 0 (map_get (spendingByPayer st) (payer t))) in *.
  set (rem := remainingToSpend st) in *.
  destruct (Z.ltb_spec 0 (points t)) as [Hpos|Hneg].
  - rewrite (fl_exact (bal (payer t) - cur)) by lia.
    rewrite (fl_exact (bal (payer t) - cur - Z.min (points t) rem)) by lia.
    destruct (Z.leb_spec 0 (bal (payer t) - cur - Z.min (points t) rem))
      as [Hok|Hnok].
    + rewrite (fl_exact (cur + Z.min (points t) rem)) by lia.
      rewrite (fl_exact (rem - Z.min (points t) rem)) by lia. done.
    + destruct (Z.ltb_spec 0 (bal (payer t) - cur)) as [Hmax|Hmax]; [|done].
      rewrite (fl_exact (cur + (bal (payer t) - cur))) by lia.
      rewrite (fl_exact (rem - (bal (payer t) - cur))) by lia. done.
  - destruct (Z.ltb_spec 0 (Z.min (Z.abs (points t)) cur)) as [Hgive|Hgive];
      [|done].
    rewrite (fl_exact (cur - Z.min (Z.abs (points t)) cur)) by lia.
    rewrite (fl_exact (rem + Z.min (Z.abs (points t)) cur)) by lia. done.
Qed.

Lemma rounded_walk_exact bal x b l :
  b + x ≤ MAX_SAFE_INTEGER →
  (∀ p, Z.abs (bal p) ≤ b) →
  Forall (λ t, Z.abs (points t) ≤ b) l →
  ∀ st, WalkInv bal x st → Rounded.walk fl bal st l = walk bal st l.
Proof.
  intros Hb Hbal Hl. induction Hl as [|t l Ht Hl IH]; intros st Hinv; [done|].
  cbn [Rounded.walk walk].
  destruct (Z.leb_spec (remainingToSpend st) 0) as [|Hrem]; [done|].
  pose proof Hinv as [Hrem0 Hnn Htot _ _].
  pose proof (map_get_nonneg _ (payer t) Hnn).
  pose proof (map_get_le_total _ (payer t) Hnn).
  rewrite (rounded_process_exact bal x b) by (done || lia).
  apply IH. by apply process_inv.
Qed.

(** For a safe call, the service with rounded arithmetic returns what the
    model returns and leaves the ledger that the model leaves. *)
Lemma rounded_spendPoints_exact now x txs :
  safeCall x txs →
  Rounded.spendPoints fl now x txs = spendPoints now x txs.
Proof.
  intros Hsafe. unfold Rounded.spendPoints, spendPoints, guarded.
  destruct (Z.ltb_spec x 0) as [|Hx]; [done|].
  assert (safeLedger txs) as Hledger.
  { unfold safeCall in Hsafe. unfold safeLedger. lia. }
  rewrite rounded_getTotalPoints_exact by done.
  destruct (Z.ltb_spec (getTotalPoints txs) x); [done|].
  unfold allocate. cbv zeta.
  rewrite rounded_payerBalances_exact by done.
  rewrite (rounded_walk_exact _ x (sumAbs (points <$> txs))); [done|..].
  - unfold safeCall in Hsafe. lia.
  - intros p. rewrite payerBalances_lookup. apply getPayerBalance_range.
  - apply Forall_forall. intros t Ht. apply sumAbs_points_elem.
    by rewrite <- (sortTransactions_perm txs).
  - by apply WalkInv_init.
Qed.
End rounding.


